(** * Word count by map / shuffle / reduce

    A shallow embedding of the MapReduce notebook
    [doc/source/ray-core/examples/map_reduce.ipynb]:
    the slicing of the corpus into [partitions], the generator
    [map_function], the two remote tasks [apply_map] and [apply_reduce],
    and the driver cell that wires mapper return value [j] to reducer [j]
    and merges the reducer dictionaries into [counts].

    Python values are modelled as follows: [bytes] objects are lists of
    [Byte.byte], Python integers are [Z], lists are lists, a [dict] is a
    [gmap], and a raised exception is the [Raise] case of [result]. *)

From Stdlib Require Import ZArith NArith Lia.
From Stdlib Require Import Strings.Byte Strings.String Sorting.Sorted.
From stdpp Require Import base numbers countable option gmap fin_maps list.

Local Open Scope Z_scope.

(** ** Exceptions and the error monad *)

Inductive exn : Type :=
  | ZeroDivisionError
  | UnicodeDecodeError
  | IndexError
  | TypeError
  | ValueError.

Inductive result (A : Type) : Type :=
  | Ok (a : A)
  | Raise (e : exn).
Arguments Ok {A} a.
Arguments Raise {A} e.

Global Instance exn_eq_dec : EqDecision exn.
Proof. solve_decision. Defined.

Global Instance result_eq_dec `{EqDecision A} : EqDecision (result A).
Proof. solve_decision. Defined.

Module PyMonad.

Global Instance result_ret : MRet result := λ A a, Ok a.

Global Instance result_bind : MBind result := λ A B f m,
  match m with
  | Ok a => f a
  | Raise e => Raise e
  end.

(** A Python [for] loop whose body may raise: the loop stops at the
    first exception. *)
Fixpoint for_each {S X} (body : S → X → result S) (s : S) (xs : list X)
  : result S :=
  match xs with
  | [] => Ok s
  | x :: xs' => s' ← body s x; for_each body s' xs'
  end.

(** A list comprehension whose element expression may raise. *)
Fixpoint comprehension {X Y} (f : X → result Y) (xs : list X)
  : result (list Y) :=
  match xs with
  | [] => Ok []
  | x :: xs' =>
      y ← f x;
      ys ← comprehension f xs';
      Ok (y :: ys)
  end.

End PyMonad.
Import PyMonad.

(** ** Python built-ins used by the notebook *)

Definition bytes := list byte.

Global Instance byte_eq_dec : EqDecision byte.
Proof.
  refine (λ a b, cast_if (decide (Byte.to_N a = Byte.to_N b))).
  - abstract (apply (inj Some); rewrite <- !Byte.of_to_N; congruence).
  - abstract congruence.
Defined.

Global Instance byte_countable : Countable byte :=
  inj_countable Byte.to_N Byte.of_N Byte.of_to_N.

Module Py.

(** [bytes.lower()]: ASCII upper-case letters are mapped to lower case,
    every other byte is unchanged. *)
Definition lower_byte (b : byte) : byte :=
  let c := Byte.to_N b in
  if ((65 <=? c) && (c <=? 90))%N
  then default b (Byte.of_N (c + 32)) else b.

Definition lower (s : bytes) : bytes := lower_byte <$> s.

(** ASCII whitespace for [bytes]: space, and the controls 0x09 .. 0x0d. *)
Definition isspace (b : byte) : bool :=
  let c := Byte.to_N b in
  ((c =? 32) || ((9 <=? c) && (c <=? 13)))%N.

(** [bytes.split()] with no argument: runs of whitespace separate the
    words, and no empty word is produced.  [cur] is the word being read,
    most recent byte first. *)
Fixpoint split_from (cur : bytes) (s : bytes) : list bytes :=
  match s with
  | [] => match cur with [] => [] | _ => [rev cur] end
  | b :: s' =>
      if isspace b
      then match cur with
           | [] => split_from [] s'
           | _ => rev cur :: split_from [] s'
           end
      else split_from (b :: cur) s'
  end.

Definition split (s : bytes) : list bytes := split_from [] s.

(** Strict UTF-8, as [bytes.decode("utf-8")] applies it: shortest form
    only, no surrogates, nothing above U+10FFFF.  [None] stands for
    [UnicodeDecodeError]. *)
Definition is_cont (c : N) : bool := ((128 <=? c) && (c <=? 191))%N.
Definition between (lo hi c : N) : bool := ((lo <=? c) && (c <=? hi))%N.

Fixpoint decode_utf8 (s : bytes) : option (list N) :=
  match s with
  | [] => Some []
  | b0 :: s1 =>
      let c0 := Byte.to_N b0 in
      if (c0 <? 128)%N then cons c0 <$> decode_utf8 s1
      else if between 194 223 c0 then
        match s1 with
        | b1 :: s2 =>
            let c1 := Byte.to_N b1 in
            if is_cont c1
            then cons ((c0 - 192) * 64 + (c1 - 128))%N <$> decode_utf8 s2
            else None
        | _ => None
        end
      else if between 224 239 c0 then
        match s1 with
        | b1 :: b2 :: s3 =>
            let c1 := Byte.to_N b1 in
            let c2 := Byte.to_N b2 in
            let lo := if (c0 =? 224)%N then 160%N else 128%N in
            let hi := if (c0 =? 237)%N then 159%N else 191%N in
            if between lo hi c1 && is_cont c2
            then cons ((c0 - 224) * 4096 + (c1 - 128) * 64 + (c2 - 128))%N
                   <$> decode_utf8 s3
            else None
        | _ => None
        end
      else if between 240 244 c0 then
        match s1 with
        | b1 :: b2 :: b3 :: s4 =>
            let c1 := Byte.to_N b1 in
            let c2 := Byte.to_N b2 in
            let c3 := Byte.to_N b3 in
            let lo := if (c0 =? 240)%N then 144%N else 128%N in
            let hi := if (c0 =? 244)%N then 143%N else 191%N in
            if between lo hi c1 && is_cont c2 && is_cont c3
            then cons ((c0 - 240) * 262144 + (c1 - 128) * 4096
                       + (c2 - 128) * 64 + (c3 - 128))%N
                   <$> decode_utf8 s4
            else None
        | _ => None
        end
      else None
  end.

Definition decode (s : bytes) : result (list N) :=
  match decode_utf8 s with
  | Some cs => Ok cs
  | None => Raise UnicodeDecodeError
  end.

(** [s[0]] on a string. *)
Definition first_char (cs : list N) : result N :=
  match cs with
  | c :: _ => Ok c
  | [] => Raise IndexError
  end.

Definition ord (c : N) : Z := Z.of_N c.

(** [a // b] and [a % b] on integers: floor division, the remainder
    takes the sign of the divisor. *)
Definition floordiv (a b : Z) : result Z :=
  if b =? 0 then Raise ZeroDivisionError else Ok (a / b).

Definition mod_ (a b : Z) : result Z :=
  if b =? 0 then Raise ZeroDivisionError else Ok (a mod b).

(** [range(n)]. *)
Definition range (n : Z) : list Z := seqZ 0 n.

Definition len {A} (l : list A) : Z := Z.of_nat (length l).

(** Position designated by the subscript [i] in a list of length [n]:
    a negative subscript counts from the end. *)
Definition subscript (n : Z) (i : Z) : result nat :=
  let i' := if i <? 0 then i + n else i in
  if (0 <=? i') && (i' <? n) then Ok (Z.to_nat i') else Raise IndexError.

(** [l[i]]. *)
Definition getitem {A} (l : list A) (i : Z) : result A :=
  k ← subscript (len l) i;
  match l !! k with
  | Some x => Ok x
  | None => Raise IndexError
  end.

(** Bound of a slice: negative bounds count from the end, and every
    bound is clamped to the list. *)
Definition slice_bound (n : Z) (i : Z) : Z :=
  if i <? 0 then Z.max 0 (i + n) else Z.min i n.

(** [l[lo:hi]]. *)
Definition slice {A} (l : list A) (lo hi : Z) : list A :=
  let lo' := slice_bound (len l) lo in
  let hi' := slice_bound (len l) hi in
  take (Z.to_nat (hi' - lo')) (drop (Z.to_nat lo') l).

(** ASCII upper-case letters, the bytes [bytes.lower()] changes. *)
Definition is_upper (b : byte) : bool :=
  let c := Byte.to_N b in ((65 <=? c) && (c <=? 90))%N.

(** [sorted(l, key=key, reverse=True)]: a stable sort into decreasing
    keys; elements with equal keys keep the order they have in [l]. *)
Fixpoint insert_reverse {A} (key : A → Z) (x : A) (l : list A) : list A :=
  match l with
  | [] => [x]
  | y :: l' =>
      if key x <? key y then y :: insert_reverse key x l' else x :: y :: l'
  end.

Definition sorted_reverse {A} (key : A → Z) (l : list A) : list A :=
  foldr (insert_reverse key) [] l.

End Py.

(** ** The notebook *)

Abbreviation Document := bytes (only parsing).
Abbreviation Pair := (bytes * Z)%type (only parsing).
Abbreviation Bucket := (list (bytes * Z)) (only parsing).
Abbreviation Dict := (gmap bytes Z) (only parsing).

(** The corpus is cut into [num_partitions] slices of [chunk] documents. *)
Definition partitions (corpus : list Document) (num_partitions : Z)
  : result (list (list Document)) :=
  chunk ← Py.floordiv (Py.len corpus) num_partitions;
  Ok ((λ i, Py.slice corpus (i * chunk) ((i + 1) * chunk))
        <$> Py.range num_partitions).

(** The generator [map_function], as the sequence of the pairs it yields. *)
Definition map_function (document : Document) : list Pair :=
  (λ word, (word, 1)) <$> Py.split (Py.lower document).

(** [ord(result[0].decode("utf-8")[0]) % num_partitions] *)
Definition word_index (key : bytes) (num_partitions : Z) : result Z :=
  decoded ← Py.decode key;
  first_letter ← Py.first_char decoded;
  Py.mod_ (Py.ord first_letter) num_partitions.

(** [map_results[word_index].append(result)] *)
Definition append_to (map_results : list Bucket) (i : Z) (r : Pair)
  : result (list Bucket) :=
  k ← Py.subscript (Py.len map_results) i;
  Ok (alter (λ bucket, bucket ++ [r]) k map_results).

(** The body of the inner loop of [apply_map]. *)
Definition apply_map_step (num_partitions : Z)
    (map_results : list Bucket) (r : Pair) : result (list Bucket) :=
  i ← word_index r.1 num_partitions;
  append_to map_results i r.

(** The task [apply_map]: [num_partitions] empty lists, then every pair
    of every document is appended to the list of its index. *)
Definition apply_map (corpus : list Document) (num_partitions : Z)
  : result (list Bucket) :=
  let map_results := replicate (Z.to_nat num_partitions) [] in
  for_each
    (λ map_results document,
       for_each (apply_map_step num_partitions) map_results
         (map_function document))
    map_results corpus.

(** The body of the inner loop of [apply_reduce]. *)
Definition reduce_step (reduce_results : Dict) (kv : Pair) : Dict :=
  let '(key, value) := kv in
  let reduce_results :=
    match reduce_results !! key with
    | None => <[key := 0]> reduce_results
    | Some _ => reduce_results
    end in
  <[key := default 0 (reduce_results !! key) + value]> reduce_results.

(** The task [apply_reduce], whose arguments are the buckets [results]. *)
Definition apply_reduce (results : list Bucket) : Dict :=
  foldl (λ reduce_results res, foldl reduce_step reduce_results res)
    ∅ results.

(** Modelled from the spec: the remote call of the runtime with its
    default options ([.remote]), which is not part of the notebook.  It
    hands back one reference to the return value of the task, and whoever
    reads the result of a failed task fails with it. *)
Definition remote {A B} (task : A → result B) (arg : A) : result B :=
  task arg.

(** Modelled from the spec: the remote call of the runtime with
    [.options(num_returns=n)], which is not part of the notebook.  The
    spec has one reference per bucket; the runtime hands back a list of
    [n] references only when [n] is not 1, and the task then has to
    return exactly [n] values; with [n = 1] it hands back one bare
    reference to the whole return value.  The result is the list of the
    values behind what is handed back, as [ray.get] reads them. *)
Definition remote_options {A B} (num_returns : Z)
    (task : A → result (list B)) (arg : A) : result (list B) :=
  returned ← task arg;
  if (num_returns =? 1) || (Py.len returned =? num_returns)
  then Ok returned else Raise ValueError.

(** Modelled from the spec: the subscript [partition[i]] on what a call
    with [.options(num_returns=n)] handed back, which is not part of the
    notebook.  A list of references is indexed as a list; the bare
    reference of [n = 1] cannot be subscripted. *)
Definition returned_getitem {A} (num_returns : Z) (returned : list A)
    (i : Z) : result A :=
  if num_returns =? 1 then Raise TypeError else Py.getitem returned i.

(** The driver: one mapper per partition, called with
    [.options(num_returns=num_partitions)]; a mapper that failed makes
    the driver fail when it first reads the mapper's results, in the
    preview loop of the same cell. *)
Definition run_mappers (parts : list (list Document)) (num_partitions : Z)
  : result (list (list Bucket)) :=
  comprehension
    (λ data,
       remote_options num_partitions
         (λ corpus, apply_map corpus num_partitions) data)
    parts.

(** The loop that prints the first two pairs of every return value of
    every mapper.  A printed line is represented by the values the
    f-string interpolates: [i], [j] and [result[:2]]. *)
Definition preview (map_results : list (list Bucket)) (num_partitions : Z)
  : result (list (Z * nat * Bucket)) :=
  lines ← comprehension
             (λ i, mapper_results ← Py.getitem map_results i;
                   Ok (imap (λ j result, (i, j, Py.slice result 0 2))
                         mapper_results))
             (Py.range num_partitions);
  Ok (concat lines).

(** For [i] in [range(num_partitions)], the task [apply_reduce] is called
    on the arguments [partition[i] for partition in map_results]: reducer
    [i] receives return value [i] of every mapper. *)
Definition run_reducers (map_results : list (list Bucket))
    (num_partitions : Z) : result (list Dict) :=
  comprehension
    (λ i, results ← comprehension
                      (λ partition,
                         returned_getitem num_partitions partition i)
                      map_results;
          remote (λ results, Ok (apply_reduce results)) results)
    (Py.range num_partitions).

(** [{k: v for output in ray.get(outputs) for k, v in output.items()}]:
    the reducer dictionaries are merged by a dict comprehension (a later
    entry replaces an earlier one). *)
Definition merge_counts (outputs : list Dict) : Dict :=
  foldl (λ counts output,
           map_fold (λ k v counts, <[k := v]> counts) counts output)
    ∅ outputs.

(** The cells of the notebook in sequence, from the corpus to [counts]. *)
Definition job (corpus : list Document) (num_partitions : Z)
  : result Dict :=
  parts ← partitions corpus num_partitions;
  map_results ← run_mappers parts num_partitions;
  _ ← preview map_results num_partitions;
  outputs ← run_reducers map_results num_partitions;
  Ok (merge_counts outputs).

(** [corpus = zen_of_python.split()]: the documents of the notebook are
    the words of the text it loads. *)
Definition load_corpus (zen_of_python : bytes) : list Document :=
  Py.split zen_of_python.

(** [sorted(counts.items(), key=lambda item: item[1], reverse=True)],
    on the items of [counts] in the order the dictionary lists them. *)
Definition sorted_counts (items : list Pair) : list Pair :=
  Py.sorted_reverse snd items.

(** The loop that prints the counts.  A printed line is represented by
    the values the f-string interpolates: [count[0].decode('utf-8')] and
    [count[1]]. *)
Definition report (sorted_counts : list Pair) : result (list (list N * Z)) :=
  comprehension
    (λ count, word ← Py.decode count.1; Ok (word, count.2))
    sorted_counts.

(** A [bytes] literal. *)
Definition lit (s : string) : bytes := list_byte_of_string s.

(** ** Vocabulary of the properties *)

(** All pairs the map function yields over a list of documents, in the
    order the mapper meets them. *)
Definition emitted (corpus : list Document) : list Pair :=
  corpus ≫= map_function.

(** The pairs of [rs] whose key has bucket index [j]. *)
Definition bucket_of (n : Z) (j : nat) (rs : list Pair) : Bucket :=
  filter (λ r, word_index r.1 n = Ok (Z.of_nat j)) rs.

Definition bucketize (n : Z) (rs : list Pair) : list Bucket :=
  (λ j, bucket_of n j rs) <$> seq 0 (Z.to_nat n).

(** The key has a bucket: its first letter can be read. *)
Definition routable (n : Z) (r : Pair) : Prop :=
  ∃ j, word_index r.1 n = Ok j.

(** The sum of the values paired with [key]. *)
Definition total_for (key : bytes) (rs : list Pair) : Z :=
  foldr Z.add 0 ((filter (λ r, r.1 = key) rs).*2).

(** What reducer [j] returns when the mappers ran over [parts]. *)
Definition reducer_output (n : Z) (parts : list (list Document)) (j : nat)
  : Dict :=
  apply_reduce ((λ shard, bucket_of n j (emitted shard)) <$> parts).

(** Everything the driver does once the corpus is sliced. *)
Definition run_tasks (parts : list (list Document)) (n : Z) : result Dict :=
  map_results ← run_mappers parts n;
  _ ← preview map_results n;
  outputs ← run_reducers map_results n;
  Ok (merge_counts outputs).

(** The chunk size, as a number of documents. *)
Definition chunk_size {A} (corpus : list A) (num_partitions : Z) : nat :=
  Z.to_nat (Py.len corpus / num_partitions).

(** The documents that reach a mapper: the first [p * chunk] ones. *)
Definition processed (corpus : list Document) (p : Z) : list Document :=
  take (Z.to_nat p * chunk_size corpus p) corpus.

(** The words of the documents, in reading order. *)
Definition words (corpus : list Document) : list bytes :=
  corpus ≫= (λ document, Py.split (Py.lower document)).

(** How many of the words [ws] are [key]. *)
Definition occurrences (key : bytes) (ws : list bytes) : Z :=
  Z.of_nat (length (filter (λ w, w = key) ws)).

(** The naive word count: a single pass over all the words of all the
    documents, which adds one to the counter of each word it meets. *)
Definition word_count (corpus : list Document) : Dict :=
  foldl (λ counts w, <[w := default 0 (counts !! w) + 1]> counts)
    ∅ (words corpus).

(** The word is valid UTF-8. *)
Definition decodable (w : bytes) : Prop := is_Some (Py.decode_utf8 w).

Global Instance decodable_dec (w : bytes) : Decision (decodable w).
Proof. unfold decodable. apply _. Defined.

(** The word holds no whitespace. *)
Definition no_space (w : bytes) : Prop :=
  Forall (λ c, Py.isspace c = false) w.

(** The sum of the counters of a dictionary. *)
Definition dict_total (counts : Dict) : Z :=
  map_fold (λ _ v total, v + total) 0 counts.

(** ** The runtime *)

Module Cluster.

(** The task [apply_map], for any map function in the place of
    [map_function]. *)
Definition apply_map_with (map_function : Document → list Pair)
    (corpus : list Document) (num_partitions : Z) : result (list Bucket) :=
  let map_results := replicate (Z.to_nat num_partitions) [] in
  for_each
    (λ map_results document,
       for_each (apply_map_step num_partitions) map_results
         (map_function document))
    map_results corpus.

(** The task [apply_reduce], for any reduce function in the place of the
    body of its inner loop. *)
Definition apply_reduce_with (reduce_step : Dict → Pair → Dict)
    (results : list Bucket) : Dict :=
  foldl (λ reduce_results res, foldl reduce_step reduce_results res)
    ∅ results.

(** Modelled from the spec: the object store of the runtime, which is
    not part of the notebook.  A mapper output is published under its
    mapper id and its buckets are addressed by (mapper id, bucket index);
    a reducer result is stored under its bucket index. *)
Record state : Type := State {
  published : gmap nat (list Bucket);
  reduced : gmap nat Dict
}.

Definition init : state := State ∅ ∅.

(** What a mapper task publishes for a shard. *)
Definition mapper_value (map_function : Document → list Pair) (n : Z)
    (shard : list Document) : result (list Bucket) :=
  remote_options n (λ corpus, apply_map_with map_function corpus n) shard.

(** Argument [j] of a reducer out of what a mapper published:
    [partition[j]], or nothing when the driver cannot subscript it. *)
Definition argument (n : Z) (j : nat) (out : list Bucket) : option Bucket :=
  match returned_getitem n out (Z.of_nat j) with
  | Ok bucket => Some bucket
  | Raise _ => None
  end.

(** Modelled from the spec: the Shuffle Router's [fetch], which is not
    part of the notebook.  It retrieves bucket [j] of every listed
    mapper, in the order of the list; it is [None] as long as one of them
    is not published, and for ever when the driver cannot address the
    bucket. *)
Definition fetch (n : Z) (σ : state) (j : nat) (mapper_ids : list nat)
  : option (list Bucket) :=
  mapM (λ i, published σ !! i ≫= argument n j) mapper_ids.

(** Modelled from the spec: the scheduling of the tasks by the runtime,
    which is not part of the notebook.  Tasks complete in any order and
    may be run again; a reducer runs once the bucket of its index is
    published by every mapper, and receives them in the order of the
    mappers, as the driver lists its arguments. *)
Inductive step (map_function : Document → list Pair)
    (reduce_step : Dict → Pair → Dict)
    (parts : list (list Document)) (n : Z)
  : state → state → Prop :=
  | step_map σ (i : nat) shard out :
      parts !! i = Some shard →
      mapper_value map_function n shard = Ok out →
      step map_function reduce_step parts n σ
        (State (<[i := out]> (published σ)) (reduced σ))
  | step_reduce σ (j : nat) buckets :
      (j < Z.to_nat n)%nat →
      fetch n σ j (seq 0 (length parts)) = Some buckets →
      step map_function reduce_step parts n σ
        (State (published σ)
           (<[j := apply_reduce_with reduce_step buckets]> (reduced σ))).

Definition reachable (map_function : Document → list Pair)
    (reduce_step : Dict → Pair → Dict)
    (parts : list (list Document)) (n : Z) (σ : state) : Prop :=
  rtc (step map_function reduce_step parts n) init σ.

(** Modelled from the spec: the Job Coordinator's completion, which is
    not part of the notebook.  Once every reducer has reported, the
    result maps are merged, in the order of the bucket indices as in the
    driver cell. *)
Definition job_result (n : Z) (σ : state) : option Dict :=
  outputs ← mapM (λ j, reduced σ !! j) (seq 0 (Z.to_nat n));
  Some (merge_counts outputs).

(** What reducer [j] returns, as a function of the shards. *)
Definition reducer_value (map_function : Document → list Pair)
    (reduce_step : Dict → Pair → Dict)
    (parts : list (list Document)) (n : Z) (j : nat) : option Dict :=
  buckets ← mapM
              (λ shard,
                 match mapper_value map_function n shard with
                 | Ok out => argument n j out
                 | Raise _ => None
                 end)
              parts;
  Some (apply_reduce_with reduce_step buckets).

(** What a reachable store holds. *)
Definition consistent (map_function : Document → list Pair)
    (reduce_step : Dict → Pair → Dict)
    (parts : list (list Document)) (n : Z) (σ : state) : Prop :=
  (∀ i out, published σ !! i = Some out →
     ∃ shard, parts !! i = Some shard
              ∧ mapper_value map_function n shard = Ok out)
  ∧ (∀ j d, reduced σ !! j = Some d →
       reducer_value map_function reduce_step parts n j = Some d).

End Cluster.

(** * Properties *)

(** ** Loops and comprehensions *)

Section monad_facts.
Context {S X Y : Type}.

Lemma bind_Ok_inv (m : result X) (f : X → result Y) (y : Y) :
  (m ≫= f) = Ok y → ∃ x, m = Ok x ∧ f x = Ok y.
Proof. destruct m as [x|e]; [by exists x | done]. Qed.

Lemma for_each_app (body : S → X → result S) (s : S) (xs ys : list X) :
  for_each body s (xs ++ ys)
  = (for_each body s xs ≫= λ s', for_each body s' ys).
Proof.
  revert s. induction xs as [|x xs IH]; intros s; simpl; [done|].
  destruct (body s x) as [s'|e]; simpl; [apply IH | done].
Qed.

Lemma comprehension_total (f : X → result Y) (g : X → Y) (xs : list X) :
  Forall (λ x, f x = Ok (g x)) xs → comprehension f xs = Ok (g <$> xs).
Proof.
  induction 1 as [|x xs Hx _ IH]; simpl; [done|]. by rewrite Hx, IH.
Qed.

Lemma comprehension_Ok_inv (f : X → result Y) (xs : list X) (ys : list Y) :
  comprehension f xs = Ok ys → Forall2 (λ x y, f x = Ok y) xs ys.
Proof.
  revert ys. induction xs as [|x xs IH]; intros ys; simpl.
  - intros [= <-]. constructor.
  - destruct (f x) as [y|] eqn:Hy; [simpl | done].
    destruct (comprehension f xs) as [ys'|]; [simpl | done].
    intros [= <-]. constructor; [done | by apply IH].
Qed.
End monad_facts.

Lemma comprehension_Ok {X Y} (f : X → result Y) (xs : list X) :
  Forall (λ x, ∃ y, f x = Ok y) xs → ∃ ys, comprehension f xs = Ok ys.
Proof.
  induction 1 as [|x xs [y Hy] _ [ys IH]]; simpl; [by eexists|].
  rewrite Hy, IH. by eexists.
Qed.

Lemma comprehension_fmap {W X Y} (f : X → result Y) (g : W → X)
    (ws : list W) :
  comprehension f (g <$> ws) = comprehension (f ∘ g) ws.
Proof. induction ws as [|w ws IH]; csimpl; [done|]. by rewrite IH. Qed.

(** ** Slicing the corpus *)

Section slicing.
Context {A : Type}.
Implicit Types l : list A.

(** A slice with bounds inside the list is a [take] of a [drop]. *)
Lemma slice_inside l (lo hi : nat) :
  (lo ≤ hi ≤ length l)%nat →
  Py.slice l (Z.of_nat lo) (Z.of_nat hi) = take (hi - lo) (drop lo l).
Proof.
  intros Hb. unfold Py.slice, Py.slice_bound, Py.len.
  destruct (Z.ltb_spec (Z.of_nat lo) 0); [lia|].
  destruct (Z.ltb_spec (Z.of_nat hi) 0); [lia|].
  rewrite !Z.min_l by lia. f_equal; [lia | f_equal; lia].
Qed.

(** [n] consecutive chunks of [c] elements make up the first [n * c]
    elements. *)
Lemma concat_chunks (c : nat) l (n : nat) :
  concat ((λ i : nat, take c (drop (i * c) l)) <$> seq 0 n)
  = take (n * c) l.
Proof.
  revert l. induction n as [|n IH]; intros l; [done|].
  simpl seq. rewrite <- fmap_S_seq, fmap_cons, <- list_fmap_compose.
  simpl concat. rewrite drop_0.
  replace (S n * c)%nat with (c + n * c)%nat by lia.
  rewrite <- (take_take_drop l c (n * c)), <- IH. do 2 f_equal.
  apply list_fmap_ext. intros _ i _. simpl. by rewrite drop_drop.
Qed.
End slicing.

Lemma range_nat (n : Z) : Py.range n = Z.of_nat <$> seq 0 (Z.to_nat n).
Proof.
  unfold Py.range, seqZ. apply list_fmap_ext. intros _ i _. simpl. lia.
Qed.

(** For a positive partition count the slices are exactly the
    consecutive chunks. *)
Lemma partitions_pos (corpus : list Document) (p : Z) :
  1 ≤ p →
  partitions corpus p
  = Ok ((λ i : nat,
           take (chunk_size corpus p) (drop (i * chunk_size corpus p) corpus))
          <$> seq 0 (Z.to_nat p)).
Proof.
  intros Hp. unfold partitions, Py.floordiv.
  destruct (Z.eqb_spec p 0); [lia|]. simpl. f_equal.
  rewrite range_nat, <- list_fmap_compose.
  apply list_fmap_ext. intros k i [-> Hk]%lookup_seq.
  set (c := chunk_size corpus p). simpl.
  assert (Hc : Py.len corpus / p = Z.of_nat c).
  { unfold c, chunk_size. rewrite Z2Nat.id; [done|].
    apply Z.div_pos; unfold Py.len; lia. }
  assert (Hle : Z.of_nat c * p ≤ Py.len corpus).
  { rewrite <- Hc, Z.mul_comm. apply Z.mul_div_le. lia. }
  rewrite Hc.
  simpl "+"%nat.
  replace (Z.of_nat k * Z.of_nat c) with (Z.of_nat (k * c)) by lia.
  replace ((Z.of_nat k + 1) * Z.of_nat c) with (Z.of_nat (k * c + c)) by lia.
  rewrite slice_inside.
  - f_equal. lia.
  - unfold Py.len in Hle. split; [lia|].
    assert (k * c + c ≤ Z.to_nat p * c)%nat by nia. nia.
Qed.

(** ** The mapper *)

Lemma word_index_range (key : bytes) (n j : Z) :
  1 ≤ n → word_index key n = Ok j → 0 ≤ j < n.
Proof.
  intros Hn. unfold word_index.
  intros (cs & _ & (c & _ & Hm)%bind_Ok_inv)%bind_Ok_inv.
  unfold Py.mod_ in Hm. destruct (Z.eqb_spec n 0); [done|].
  injection Hm as <-. apply Z.mod_pos_bound. lia.
Qed.

Lemma subscript_inside (n i : Z) :
  0 ≤ i < n → Py.subscript n i = Ok (Z.to_nat i).
Proof.
  intros Hi. unfold Py.subscript.
  destruct (Z.ltb_spec i 0); [lia|].
  destruct (Z.leb_spec 0 i); [|lia].
  destruct (Z.ltb_spec i n); [done | lia].
Qed.

Lemma bucket_of_cons (n : Z) (j : nat) (r : Pair) (rs : list Pair) :
  bucket_of n j (r :: rs)
  = if decide (word_index r.1 n = Ok (Z.of_nat j))
    then r :: bucket_of n j rs else bucket_of n j rs.
Proof. unfold bucket_of. by rewrite filter_cons. Qed.

Lemma bucket_of_app (n : Z) (j : nat) (rs1 rs2 : list Pair) :
  bucket_of n j (rs1 ++ rs2) = bucket_of n j rs1 ++ bucket_of n j rs2.
Proof. apply filter_app. Qed.

(** One turn of the inner loop appends the pair to the bucket of its
    key and to no other. *)
Lemma apply_map_step_Ok (n : Z) (acc : list Bucket) (r : Pair) (j : Z) :
  1 ≤ n → length acc = Z.to_nat n → word_index r.1 n = Ok j →
  apply_map_step n acc r
  = Ok (alter (λ bucket, bucket ++ [r]) (Z.to_nat j) acc).
Proof.
  intros Hn Hlen Hj. unfold apply_map_step, append_to. rewrite Hj. simpl.
  rewrite subscript_inside; [done|].
  apply word_index_range in Hj; [|done]. unfold Py.len. lia.
Qed.

Lemma apply_map_step_Ok_inv (n : Z) (acc out : list Bucket) (r : Pair) :
  apply_map_step n acc r = Ok out → routable n r.
Proof. intros (j & Hj & _)%bind_Ok_inv. by exists j. Qed.

(** The loop over the pairs, from any state of the [n] buckets. *)
Lemma map_loop_Ok (n : Z) (rs : list Pair) (acc : list Bucket) :
  1 ≤ n → length acc = Z.to_nat n → Forall (routable n) rs →
  for_each (apply_map_step n) acc rs
  = Ok (imap (λ j bucket, bucket ++ bucket_of n j rs) acc).
Proof.
  intros Hn Hlen Hrs. revert acc Hlen.
  induction Hrs as [|r rs [j Hj] _ IH]; intros acc Hlen.
  - simpl. f_equal. apply list_eq. intros i.
    rewrite list_lookup_imap. destruct (acc !! i); [simpl|done].
    by rewrite app_nil_r.
  - simpl. rewrite (apply_map_step_Ok n acc r j) by done. simpl.
    rewrite IH by (by rewrite length_alter). f_equal.
    apply list_eq. intros i. rewrite !list_lookup_imap, bucket_of_cons.
    pose proof (word_index_range _ _ _ Hn Hj) as Hrange.
    destruct (decide (i = Z.to_nat j)) as [->|Hne].
    + rewrite list_lookup_alter_eq, Z2Nat.id by lia.
      rewrite decide_True by done.
      destruct (acc !! Z.to_nat j); [simpl|done].
      by rewrite <- app_assoc.
    + rewrite list_lookup_alter_ne by done.
      rewrite decide_False; [done|].
      rewrite Hj. intros [= ->]. lia.
Qed.

Lemma map_loop_Ok_inv (n : Z) (rs : list Pair) (acc out : list Bucket) :
  for_each (apply_map_step n) acc rs = Ok out → Forall (routable n) rs.
Proof.
  revert acc. induction rs as [|r rs IH]; intros acc; simpl; [done|].
  intros (acc' & Hstep & Hrest)%bind_Ok_inv. constructor.
  - by eapply apply_map_step_Ok_inv.
  - by eapply IH.
Qed.

(** The two nested loops of [apply_map] are one loop over the pairs
    emitted for the whole shard. *)
Lemma apply_map_flat (corpus : list Document) (n : Z) :
  apply_map corpus n
  = for_each (apply_map_step n) (replicate (Z.to_nat n) []) (emitted corpus).
Proof.
  unfold apply_map, emitted. generalize (replicate (Z.to_nat n) ([] : Bucket)).
  induction corpus as [|d corpus IH]; intros acc; simpl; [done|].
  rewrite for_each_app.
  destruct (for_each (apply_map_step n) acc (map_function d)); simpl;
    [apply IH | done].
Qed.

Lemma imap_replicate_nil (f : nat → Bucket) (n : nat) :
  imap (λ j bucket, bucket ++ f j) (replicate n []) = f <$> seq 0 n.
Proof.
  apply list_eq. intros i.
  rewrite list_lookup_imap, list_lookup_fmap.
  destruct (decide (i < n)%nat) as [Hi|Hi].
  - by rewrite lookup_replicate_2, lookup_seq_lt.
  - rewrite (proj1 (lookup_replicate_None _ _ _)), lookup_seq_ge; [done|lia|lia].
Qed.

Lemma apply_map_Ok (corpus : list Document) (n : Z) :
  1 ≤ n → Forall (routable n) (emitted corpus) →
  apply_map corpus n = Ok (bucketize n (emitted corpus)).
Proof.
  intros Hn Hr. rewrite apply_map_flat.
  rewrite map_loop_Ok by (by rewrite ?length_replicate).
  by rewrite imap_replicate_nil.
Qed.

Lemma apply_map_Ok_inv (corpus : list Document) (n : Z) (out : list Bucket) :
  1 ≤ n → apply_map corpus n = Ok out →
  Forall (routable n) (emitted corpus) ∧ out = bucketize n (emitted corpus).
Proof.
  intros Hn Hout. rewrite apply_map_flat in Hout.
  pose proof (map_loop_Ok_inv _ _ _ _ Hout) as Hr. split; [done|].
  rewrite <- apply_map_flat, apply_map_Ok in Hout by done. congruence.
Qed.

(** ** The reducer *)

Lemma total_for_cons (key : bytes) (r : Pair) (rs : list Pair) :
  total_for key (r :: rs)
  = if decide (r.1 = key) then r.2 + total_for key rs else total_for key rs.
Proof.
  unfold total_for. rewrite filter_cons. by destruct (decide _).
Qed.

Lemma total_for_absent (key : bytes) (rs : list Pair) :
  key ∉ rs.*1 → total_for key rs = 0.
Proof.
  induction rs as [|r rs IH]; [done|].
  rewrite fmap_cons, not_elem_of_cons, total_for_cons. intros [Hne Hrs].
  rewrite decide_False by done. by apply IH.
Qed.

Lemma reduce_step_lookup (acc : Dict) (r : Pair) (key : bytes) :
  reduce_step acc r !! key
  = if decide (r.1 = key) then Some (default 0 (acc !! key) + r.2)
    else acc !! key.
Proof.
  destruct r as [k v]. unfold reduce_step. simpl.
  destruct (decide (k = key)) as [->|Hne].
  - rewrite lookup_insert_eq.
    destruct (acc !! key) eqn:Hk; simpl; by rewrite ?Hk, ?lookup_insert_eq.
  - rewrite lookup_insert_ne by done.
    destruct (acc !! k); [done|]. by rewrite lookup_insert_ne.
Qed.

(** The inner loop of [apply_reduce], from any state of the dictionary. *)
Lemma reduce_loop_lookup (rs : list Pair) (acc : Dict) (key : bytes) :
  foldl reduce_step acc rs !! key
  = if decide (key ∈ rs.*1)
    then Some (default 0 (acc !! key) + total_for key rs)
    else acc !! key.
Proof.
  revert acc. induction rs as [|r rs IH]; intros acc.
  - by rewrite decide_False by apply not_elem_of_nil.
  - simpl foldl. rewrite IH, reduce_step_lookup, total_for_cons, fmap_cons.
    destruct (decide (r.1 = key)) as [Heq|Hne].
    + rewrite (decide_True (P := key ∈ _ :: _))
        by (rewrite elem_of_cons; by left).
      destruct (decide (key ∈ rs.*1)) as [Hin|Hnin]; simpl; f_equal; [lia|].
      rewrite total_for_absent by done. lia.
    + destruct (decide (key ∈ rs.*1)) as [Hin|Hnin].
      * rewrite decide_True by (rewrite elem_of_cons; by right). done.
      * rewrite decide_False; [done|].
        rewrite elem_of_cons. intros [?|?]; [congruence | done].
Qed.

Lemma apply_reduce_flat (results : list Bucket) :
  apply_reduce results = foldl reduce_step ∅ (concat results).
Proof.
  unfold apply_reduce. generalize (∅ : Dict).
  induction results as [|res results IH]; intros acc; simpl; [done|].
  by rewrite foldl_app, IH.
Qed.

Lemma apply_reduce_lookup (results : list Bucket) (key : bytes) :
  apply_reduce results !! key
  = if decide (key ∈ (concat results).*1)
    then Some (total_for key (concat results)) else None.
Proof.
  rewrite apply_reduce_flat, reduce_loop_lookup, lookup_empty. simpl.
  by destruct (decide _).
Qed.

(** ** Merging the reducer dictionaries *)

Lemma dict_update_union (counts output : Dict) :
  map_fold (λ k v counts, <[k := v]> counts) counts output = output ∪ counts.
Proof.
  apply (map_fold_weak_ind (λ r m, r = m ∪ counts)).
  - by rewrite (left_id_L ∅ (∪)).
  - intros k v m r Hk ->. by rewrite insert_union_l.
Qed.

Lemma merge_counts_snoc (outputs : list Dict) (output : Dict) :
  merge_counts (outputs ++ [output]) = output ∪ merge_counts outputs.
Proof.
  unfold merge_counts. rewrite foldl_app. simpl. apply dict_update_union.
Qed.

Lemma merge_counts_absent (outputs : list Dict) (key : bytes) :
  Forall (λ output : Dict, output !! key = None) outputs →
  merge_counts outputs !! key = None.
Proof.
  induction outputs as [|output outputs IH] using rev_ind; [done|].
  rewrite Forall_app, Forall_singleton, merge_counts_snoc. intros [Ho Hout].
  rewrite lookup_union_None. auto.
Qed.

(** When a key occurs in the dictionary of reducer [j] only, the merged
    dictionary holds the entry of reducer [j]. *)
Lemma merge_counts_unique (outputs : list Dict) (j : nat) (out_j : Dict)
    (key : bytes) :
  outputs !! j = Some out_j →
  (∀ i out_i, outputs !! i = Some out_i → i ≠ j → out_i !! key = None) →
  merge_counts outputs !! key = out_j !! key.
Proof.
  revert j out_j.
  induction outputs as [|output outputs IH] using rev_ind;
    intros j out_j Hj Hother; [done|].
  rewrite merge_counts_snoc.
  destruct (decide (j = length outputs)) as [->|Hne].
  - rewrite list_lookup_middle in Hj by done. injection Hj as ->.
    rewrite lookup_union_l; [done|].
    apply merge_counts_absent, Forall_lookup. intros i out_i Hi.
    apply (Hother i); [by rewrite lookup_app_l by by eapply lookup_lt_Some|].
    apply lookup_lt_Some in Hi. lia.
  - assert (j < length outputs)%nat as Hlt.
    { apply lookup_lt_Some in Hj. rewrite length_app in Hj. simpl in Hj. lia. }
    rewrite lookup_app_l in Hj by done.
    rewrite lookup_union_r.
    + apply (IH j); [done|]. intros i out_i Hi Hij.
      apply (Hother i); [|done].
      by rewrite lookup_app_l by by eapply lookup_lt_Some.
    + apply (Hother (length outputs)); [|lia].
      by rewrite list_lookup_middle.
Qed.

(** ** Mappers, shuffle and reducers together *)

Lemma emitted_app (docs1 docs2 : list Document) :
  emitted (docs1 ++ docs2) = emitted docs1 ++ emitted docs2.
Proof. apply bind_app. Qed.

Lemma emitted_concat (parts : list (list Document)) :
  emitted (concat parts) = concat (emitted <$> parts).
Proof.
  induction parts as [|shard parts IH]; [done|].
  csimpl. by rewrite emitted_app, IH.
Qed.

Lemma concat_bucket_of (n : Z) (j : nat) (parts : list (list Document)) :
  concat ((λ shard, bucket_of n j (emitted shard)) <$> parts)
  = bucket_of n j (emitted (concat parts)).
Proof.
  induction parts as [|shard parts IH]; [done|].
  csimpl. by rewrite emitted_app, bucket_of_app, IH.
Qed.

Lemma elem_of_bucket_of_keys (n : Z) (j : nat) (rs : list Pair) (key : bytes) :
  key ∈ (bucket_of n j rs).*1
  ↔ key ∈ rs.*1 ∧ word_index key n = Ok (Z.of_nat j).
Proof.
  unfold bucket_of. rewrite !list_elem_of_fmap. split.
  - intros (r & -> & [Hr Hin]%list_elem_of_filter). eauto.
  - intros [(r & -> & Hin) Hj]. exists r. split; [done|].
    by apply list_elem_of_filter.
Qed.

Lemma total_for_bucket_of (n : Z) (j : nat) (rs : list Pair) (key : bytes) :
  word_index key n = Ok (Z.of_nat j) →
  total_for key (bucket_of n j rs) = total_for key rs.
Proof.
  intros Hj. induction rs as [|r rs IH]; [done|].
  rewrite bucket_of_cons, (total_for_cons key r rs).
  destruct (decide (r.1 = key)) as [Heq|Hne].
  - rewrite decide_True by by rewrite Heq.
    rewrite total_for_cons, decide_True by done. by rewrite IH.
  - destruct (decide _); [|done].
    by rewrite total_for_cons, decide_False.
Qed.

Lemma reducer_output_lookup (n : Z) (parts : list (list Document)) (j : nat)
    (key : bytes) :
  reducer_output n parts j !! key
  = if decide (key ∈ (emitted (concat parts)).*1
               ∧ word_index key n = Ok (Z.of_nat j))
    then Some (total_for key (emitted (concat parts))) else None.
Proof.
  unfold reducer_output. rewrite apply_reduce_lookup, concat_bucket_of.
  destruct (decide (key ∈ (bucket_of _ _ _).*1)) as [Hin|Hnin].
  - apply elem_of_bucket_of_keys in Hin as Hin'.
    rewrite decide_True by done. f_equal.
    apply total_for_bucket_of, Hin'.
  - rewrite decide_False; [done|]. by rewrite <- elem_of_bucket_of_keys.
Qed.

Lemma length_bucketize (n : Z) (rs : list Pair) :
  length (bucketize n rs) = Z.to_nat n.
Proof. unfold bucketize. by rewrite length_fmap, length_seq. Qed.

(** A mapper returns as many values as the call announces. *)
Lemma remote_options_apply_map (shard : list Document) (n : Z) :
  1 ≤ n →
  remote_options n (λ corpus, apply_map corpus n) shard = apply_map shard n.
Proof.
  intros Hn. unfold remote_options.
  destruct (apply_map shard n) as [out|e] eqn:Hout; [simpl | done].
  apply apply_map_Ok_inv in Hout as [_ ->]; [|done].
  unfold Py.len. rewrite length_bucketize, Z2Nat.id by lia.
  by rewrite Z.eqb_refl, orb_true_r.
Qed.

Lemma run_mappers_Ok (parts : list (list Document)) (n : Z) :
  1 ≤ n → Forall (routable n) (emitted (concat parts)) →
  run_mappers parts n = Ok ((λ shard, bucketize n (emitted shard)) <$> parts).
Proof.
  intros Hn Hr. apply comprehension_total, Forall_forall.
  intros shard Hshard. rewrite remote_options_apply_map by done.
  apply apply_map_Ok; [done|].
  rewrite emitted_concat in Hr. rewrite Forall_concat, Forall_fmap in Hr.
  by apply (proj1 (Forall_forall _ _) Hr).
Qed.

Lemma run_mappers_Ok_inv (parts : list (list Document)) (n : Z)
    (map_results : list (list Bucket)) :
  1 ≤ n → run_mappers parts n = Ok map_results →
  Forall (routable n) (emitted (concat parts))
  ∧ map_results = (λ shard, bucketize n (emitted shard)) <$> parts.
Proof.
  intros Hn Hrun. apply comprehension_Ok_inv in Hrun. split.
  - rewrite emitted_concat, Forall_concat, Forall_fmap.
    induction Hrun as [|shard out parts outs Hout _ IH]; constructor; [|done].
    rewrite remote_options_apply_map in Hout by done.
    by apply (apply_map_Ok_inv shard n out).
  - induction Hrun as [|shard out parts outs Hout _ IH]; [done|].
    rewrite fmap_cons. f_equal; [|done].
    rewrite remote_options_apply_map in Hout by done.
    by apply (apply_map_Ok_inv shard n out).
Qed.

Lemma getitem_bucketize (n : Z) (rs : list Pair) (j : nat) :
  (j < Z.to_nat n)%nat →
  Py.getitem (bucketize n rs) (Z.of_nat j) = Ok (bucket_of n j rs).
Proof.
  intros Hj. unfold Py.getitem, Py.len, bucketize.
  rewrite length_fmap, length_seq, subscript_inside by lia. simpl.
  by rewrite Nat2Z.id, list_lookup_fmap, lookup_seq_lt.
Qed.

Lemma returned_getitem_list {A} (n : Z) (returned : list A) (i : Z) :
  n ≠ 1 → returned_getitem n returned i = Py.getitem returned i.
Proof.
  intros Hn. unfold returned_getitem. by destruct (Z.eqb_spec n 1).
Qed.

(** With a partition count other than 1 the driver can address the
    buckets, and reducer [j] receives bucket [j] of every mapper. *)
Lemma run_reducers_Ok (parts : list (list Document)) (n : Z) :
  n ≠ 1 →
  run_reducers ((λ shard, bucketize n (emitted shard)) <$> parts) n
  = Ok (reducer_output n parts <$> seq 0 (Z.to_nat n)).
Proof.
  intros Hn. unfold run_reducers. rewrite range_nat, comprehension_fmap.
  apply comprehension_total, Forall_forall.
  intros j [_ Hj]%elem_of_seq. simpl.
  rewrite comprehension_fmap.
  rewrite (comprehension_total _ (λ shard, bucket_of n j (emitted shard)));
    [done|].
  apply Forall_forall. intros shard _. simpl.
  rewrite returned_getitem_list by done.
  apply getitem_bucketize. lia.
Qed.

(** With one partition the mappers hand back bare references, and the
    driver raises when it subscripts the first of them. *)
Lemma run_reducers_one (out : list Bucket) (outs : list (list Bucket)) :
  run_reducers (out :: outs) 1 = Raise TypeError.
Proof. done. Qed.

(** The preview never raises when there is a mapper for every index. *)
Lemma preview_Ok (map_results : list (list Bucket)) (n : Z) :
  (Z.to_nat n ≤ length map_results)%nat →
  ∃ lines, preview map_results n = Ok lines.
Proof.
  intros Hlen. unfold preview.
  destruct (comprehension_Ok
              (λ i, mapper_results ← Py.getitem map_results i;
                    Ok (imap (λ j result, (i, j, Py.slice result 0 2))
                          mapper_results))
              (Py.range n)) as [lines Hlines].
  - rewrite range_nat. apply Forall_fmap, Forall_forall.
    intros i [_ Hi]%elem_of_seq. simpl. unfold Py.getitem, Py.len.
    rewrite subscript_inside by lia. simpl. rewrite Nat2Z.id.
    destruct (map_results !! i) as [mapper_results|] eqn:Hi'; [by eexists|].
    apply lookup_ge_None in Hi'. lia.
  - rewrite Hlines. by eexists.
Qed.

Lemma merged_lookup (n : Z) (parts : list (list Document)) (key : bytes) :
  1 ≤ n → Forall (routable n) (emitted (concat parts)) →
  merge_counts (reducer_output n parts <$> seq 0 (Z.to_nat n)) !! key
  = if decide (key ∈ (emitted (concat parts)).*1)
    then Some (total_for key (emitted (concat parts))) else None.
Proof.
  intros Hn Hr. destruct (decide _) as [Hin|Hnin].
  - assert (∃ j, word_index key n = Ok j) as [j Hj].
    { apply list_elem_of_fmap in Hin as (r & -> & Hin).
      by apply (proj1 (Forall_forall _ _) Hr). }
    pose proof (word_index_range _ _ _ Hn Hj) as Hrange.
    rewrite (merge_counts_unique _ (Z.to_nat j)
               (reducer_output n parts (Z.to_nat j))).
    + rewrite reducer_output_lookup, decide_True; [done|].
      split; [done|]. by rewrite Z2Nat.id by lia.
    + rewrite list_lookup_fmap, lookup_seq_lt by lia. done.
    + intros i out_i Hi Hne.
      rewrite list_lookup_fmap in Hi.
      destruct (seq 0 (Z.to_nat n) !! i) as [i'|] eqn:Hi'; [|done].
      apply lookup_seq in Hi' as [-> _]. injection Hi as <-.
      rewrite reducer_output_lookup, decide_False; [done|].
      intros [_ Hi]. rewrite Hj in Hi. injection Hi as ->. lia.
  - apply merge_counts_absent, Forall_fmap, Forall_forall.
    intros j _. simpl. rewrite reducer_output_lookup, decide_False; [done|].
    by intros [? _].
Qed.

(** ** The word count the job is meant to compute *)

Lemma occurrences_cons (key w : bytes) (ws : list bytes) :
  occurrences key (w :: ws)
  = if decide (w = key) then 1 + occurrences key ws else occurrences key ws.
Proof.
  unfold occurrences. rewrite filter_cons.
  destruct (decide _); simpl length; lia.
Qed.

Lemma occurrences_absent (key : bytes) (ws : list bytes) :
  key ∉ ws → occurrences key ws = 0.
Proof.
  induction ws as [|w ws IH]; [done|].
  rewrite not_elem_of_cons, occurrences_cons. intros [Hne Hws].
  rewrite decide_False by done. by apply IH.
Qed.

Lemma count_loop_lookup (ws : list bytes) (acc : Dict) (key : bytes) :
  foldl (λ counts w, <[w := default 0 (counts !! w) + 1]> counts) acc ws
    !! key
  = if decide (key ∈ ws)
    then Some (default 0 (acc !! key) + occurrences key ws)
    else acc !! key.
Proof.
  revert acc. induction ws as [|w ws IH]; intros acc.
  - by rewrite decide_False by apply not_elem_of_nil.
  - simpl foldl. rewrite IH, occurrences_cons.
    destruct (decide (w = key)) as [->|Hne].
    + rewrite lookup_insert_eq.
      rewrite (decide_True (P := key ∈ _ :: _))
        by (rewrite elem_of_cons; by left).
      destruct (decide (key ∈ ws)) as [Hin|Hnin]; simpl; f_equal; [lia|].
      rewrite occurrences_absent by done. lia.
    + rewrite lookup_insert_ne by done.
      destruct (decide (key ∈ ws)) as [Hin|Hnin].
      * by rewrite decide_True by (rewrite elem_of_cons; by right).
      * rewrite decide_False; [done|].
        rewrite elem_of_cons. intros [?|?]; [congruence | done].
Qed.

(** Every word is counted exactly once: the counter of a word is the
    number of its occurrences, and only words that occur have one. *)
Lemma word_count_lookup (corpus : list Document) (key : bytes) :
  word_count corpus !! key
  = if decide (key ∈ words corpus)
    then Some (occurrences key (words corpus)) else None.
Proof.
  unfold word_count. rewrite count_loop_lookup, lookup_empty. simpl.
  by destruct (decide _).
Qed.

Lemma emitted_words (corpus : list Document) :
  emitted corpus = (λ w, (w, 1)) <$> words corpus.
Proof.
  unfold emitted, words, map_function.
  induction corpus as [|d corpus IH]; [done|].
  csimpl. by rewrite IH, fmap_app.
Qed.

Lemma emitted_keys (corpus : list Document) :
  (emitted corpus).*1 = words corpus.
Proof.
  rewrite emitted_words, <- list_fmap_compose. apply list_fmap_id.
Qed.

Lemma total_for_emitted (key : bytes) (corpus : list Document) :
  total_for key (emitted corpus) = occurrences key (words corpus).
Proof.
  rewrite emitted_words. induction (words corpus) as [|w ws IH]; [done|].
  rewrite fmap_cons, total_for_cons, occurrences_cons. simpl.
  destruct (decide _); lia.
Qed.

(** ** Words have a bucket as soon as they decode *)

Lemma split_from_nonempty (cur s : bytes) :
  Forall (λ w, w ≠ []) (Py.split_from cur s).
Proof.
  revert cur. induction s as [|c s IH]; intros cur; simpl.
  - destruct cur as [|c' cur]; [constructor|].
    constructor; [|constructor]. simpl. by destruct (rev cur).
  - destruct (Py.isspace c); [|apply IH].
    destruct cur as [|c' cur]; [apply IH|].
    constructor; [|apply IH]. simpl. by destruct (rev cur).
Qed.

Lemma words_nonempty (corpus : list Document) :
  Forall (λ w, w ≠ []) (words corpus).
Proof.
  unfold words. induction corpus as [|d corpus IH]; [constructor|].
  csimpl. apply Forall_app. split; [apply split_from_nonempty | done].
Qed.

Lemma decode_utf8_nonempty (w : bytes) (cs : list N) :
  w ≠ [] → Py.decode_utf8 w = Some cs → cs ≠ [].
Proof.
  destruct w as [|b0 s1]; [done|]. intros _. simpl.
  repeat case_match; try done;
    intros (cs' & _ & ->)%fmap_Some; done.
Qed.

Lemma word_index_decodable (w : bytes) (n : Z) :
  n ≠ 0 → w ≠ [] → decodable w → ∃ j, word_index w n = Ok j.
Proof.
  intros Hn Hw [cs Hcs]. unfold word_index, Py.decode. rewrite Hcs. simpl.
  pose proof (decode_utf8_nonempty w cs Hw Hcs).
  destruct cs as [|c cs]; [done|]. simpl. unfold Py.mod_.
  destruct (Z.eqb_spec n 0); [done|]. eauto.
Qed.

Lemma word_index_Ok_decodable (w : bytes) (n j : Z) :
  word_index w n = Ok j → decodable w.
Proof.
  unfold word_index, Py.decode, decodable.
  destruct (Py.decode_utf8 w); [eauto | done].
Qed.

Lemma routable_emitted (corpus : list Document) (n : Z) :
  n ≠ 0 →
  Forall (routable n) (emitted corpus) ↔ Forall decodable (words corpus).
Proof.
  intros Hn. rewrite emitted_words, Forall_fmap. split.
  - intros Hr. eapply Forall_impl; [exact Hr|].
    intros w [j Hj]. by eapply word_index_Ok_decodable.
  - intros Hd. pose proof (words_nonempty corpus) as Hne.
    induction Hd as [|w ws Hw _ IH]; [constructor|].
    apply Forall_cons in Hne as [Hwne Hne].
    constructor; [|by apply IH]. by apply word_index_decodable.
Qed.

(** ** The whole job *)

Lemma job_run_tasks (corpus : list Document) (p : Z) :
  job corpus p = (partitions corpus p ≫= λ parts, run_tasks parts p).
Proof. done. Qed.

Lemma run_tasks_merge (parts : list (list Document)) (n : Z) :
  2 ≤ n → length parts = Z.to_nat n →
  Forall (routable n) (emitted (concat parts)) →
  run_tasks parts n
  = Ok (merge_counts (reducer_output n parts <$> seq 0 (Z.to_nat n))).
Proof.
  intros Hn Hlen Hr.
  unfold run_tasks. rewrite run_mappers_Ok by (done || lia). simpl.
  destruct (preview_Ok ((λ shard, bucketize n (emitted shard)) <$> parts) n)
    as [lines ->]; [by rewrite length_fmap, Hlen|]. simpl.
  by rewrite run_reducers_Ok by lia.
Qed.

Lemma run_tasks_Ok (parts : list (list Document)) (n : Z) :
  2 ≤ n → length parts = Z.to_nat n →
  Forall decodable (words (concat parts)) →
  run_tasks parts n = Ok (word_count (concat parts)).
Proof.
  intros Hn Hlen Hd. apply routable_emitted with (n := n) in Hd; [|lia].
  rewrite run_tasks_merge by done. f_equal. apply map_eq. intros key.
  rewrite merged_lookup, word_count_lookup by (done || lia).
  by rewrite emitted_keys, total_for_emitted.
Qed.

Lemma partitions_concat (corpus : list Document) (p : Z)
    (parts : list (list Document)) :
  1 ≤ p → partitions corpus p = Ok parts → concat parts = processed corpus p.
Proof.
  intros Hp. rewrite partitions_pos by done. intros [= <-].
  apply concat_chunks.
Qed.

Lemma chunk_size_le (corpus : list Document) (p : Z) :
  1 ≤ p → (Z.to_nat p * chunk_size corpus p ≤ length corpus)%nat.
Proof.
  intros Hp. unfold chunk_size, Py.len.
  pose proof (Z.mul_div_le (Z.of_nat (length corpus)) p).
  pose proof (Z.div_pos (Z.of_nat (length corpus)) p). nia.
Qed.

Lemma chunk_size_divide (corpus : list Document) (p : Z) :
  1 ≤ p → (p | Py.len corpus) →
  (Z.to_nat p * chunk_size corpus p = length corpus)%nat.
Proof.
  intros Hp [q Hq]. unfold chunk_size. rewrite Hq, Z.div_mul by lia.
  unfold Py.len in Hq. nia.
Qed.

Lemma partitions_length (corpus : list Document) (p : Z)
    (parts : list (list Document)) :
  1 ≤ p → partitions corpus p = Ok parts → length parts = Z.to_nat p.
Proof.
  intros Hp. rewrite partitions_pos by done. intros [= <-].
  by rewrite length_fmap, length_seq.
Qed.

Lemma job_pos_Ok (corpus : list Document) (p : Z) :
  2 ≤ p → Forall decodable (words (processed corpus p)) →
  job corpus p = Ok (word_count (processed corpus p)).
Proof.
  intros Hp Hd. rewrite job_run_tasks.
  destruct (partitions corpus p) as [parts|e] eqn:Hparts;
    [|by rewrite partitions_pos in Hparts by lia].
  assert (length parts = Z.to_nat p) as Hlen
    by (apply (partitions_length corpus p); [lia | done]).
  apply partitions_concat in Hparts; [|lia]. simpl.
  rewrite <- Hparts in *. by apply run_tasks_Ok.
Qed.

(** ** Documents beyond the last chunk *)

Lemma chunks_agree {A} (c n : nat) (l l' : list A) :
  take (n * c) l = take (n * c) l' →
  (λ i : nat, take c (drop (i * c) l)) <$> seq 0 n
  = (λ i : nat, take c (drop (i * c) l')) <$> seq 0 n.
Proof.
  intros Heq. apply list_fmap_ext. intros k i [-> Hk]%lookup_seq. simpl.
  rewrite !take_drop_commute. f_equal.
  assert (k * c + c = (k * c + c) `min` (n * c))%nat as -> by nia.
  by rewrite <- !take_take, Heq.
Qed.

Lemma chunk_size_tail (corpus tail : list Document) (p : Z) :
  1 ≤ p → (length tail < Z.to_nat p)%nat →
  chunk_size (processed corpus p ++ tail) p = chunk_size corpus p.
Proof.
  intros Hp Htail. pose proof (chunk_size_le corpus p Hp) as Hle.
  unfold chunk_size at 1. unfold Py.len, processed.
  rewrite length_app, length_take_le by done.
  rewrite <- (Nat2Z.id (chunk_size corpus p)) at 2. f_equal.
  symmetry. apply (Z.div_unique_pos _ _ _ (Z.of_nat (length tail))); lia.
Qed.

Lemma partitions_tail (corpus tail : list Document) (p : Z) :
  1 ≤ p → (length tail < Z.to_nat p)%nat →
  partitions (processed corpus p ++ tail) p = partitions corpus p.
Proof.
  intros Hp Htail. rewrite !partitions_pos by done.
  rewrite chunk_size_tail by done. f_equal. apply chunks_agree.
  unfold processed. rewrite take_app_length'; [done|].
  rewrite length_take_le; [done|]. by apply chunk_size_le.
Qed.

Lemma length_dropped (corpus : list Document) (p : Z) :
  1 ≤ p →
  Py.len (drop (Z.to_nat p * chunk_size corpus p) corpus)
  = Py.len corpus mod p.
Proof.
  intros Hp. unfold Py.len. rewrite length_drop.
  pose proof (chunk_size_le corpus p Hp) as Hle.
  rewrite Z.mod_eq by lia. unfold chunk_size, Py.len in *.
  pose proof (Z.div_pos (Z.of_nat (length corpus)) p). lia.
Qed.

(** ** Successful runs, read backwards *)

Lemma run_reducers_nonpos (map_results : list (list Bucket)) (n : Z)
    (outputs : list Dict) :
  n ≤ 0 → run_reducers map_results n = Ok outputs → outputs = [].
Proof.
  intros Hn. unfold run_reducers. rewrite range_nat, Z2Nat.nonpos by done.
  by intros [= <-].
Qed.

Lemma tasks_outputs (parts : list (list Document)) (n : Z)
    (map_results : list (list Bucket)) (outputs : list Dict) :
  1 ≤ n → run_mappers parts n = Ok map_results →
  run_reducers map_results n = Ok outputs →
  Forall (routable n) (emitted (concat parts))
  ∧ map_results = (λ shard, bucketize n (emitted shard)) <$> parts
  ∧ outputs = reducer_output n parts <$> seq 0 (Z.to_nat n).
Proof.
  intros Hn [Hr ->]%run_mappers_Ok_inv; [|done].
  destruct (decide (n = 1)) as [->|Hne].
  - destruct parts as [|shard parts].
    + by intros [= <-].
    + by rewrite fmap_cons, run_reducers_one.
  - rewrite run_reducers_Ok by done. by intros [= <-].
Qed.

Lemma outputs_lookup (parts : list (list Document)) (n : Z) (j : nat)
    (out : Dict) :
  (reducer_output n parts <$> seq 0 (Z.to_nat n)) !! j = Some out →
  (j < Z.to_nat n)%nat ∧ out = reducer_output n parts j.
Proof.
  rewrite list_lookup_fmap.
  destruct (seq 0 (Z.to_nat n) !! j) as [k|] eqn:Hk; [|done].
  apply lookup_seq in Hk as [-> Hj]. by intros [= <-].
Qed.

(** ** The buckets of a mapper hold the emitted pairs *)

Lemma concat_alter_snoc (acc : list Bucket) (k : nat) (r : Pair) :
  (k < length acc)%nat →
  concat (alter (λ bucket, bucket ++ [r]) k acc) ≡ₚ r :: concat acc.
Proof.
  revert k. induction acc as [|bucket acc IH]; intros k Hk; simpl in Hk.
  - lia.
  - destruct k as [|k]; csimpl.
    + rewrite <- app_assoc. simpl. by rewrite <- Permutation_middle.
    + rewrite IH by lia. by rewrite <- Permutation_middle.
Qed.

Lemma map_loop_perm (n : Z) (rs : list Pair) (acc out : list Bucket) :
  1 ≤ n → length acc = Z.to_nat n →
  for_each (apply_map_step n) acc rs = Ok out →
  concat out ≡ₚ concat acc ++ rs.
Proof.
  intros Hn. revert acc.
  induction rs as [|r rs IH]; intros acc Hlen; simpl.
  - intros [= <-]. by rewrite app_nil_r.
  - intros (acc' & Hstep & Hrest)%bind_Ok_inv.
    destruct (apply_map_step_Ok_inv _ _ _ _ Hstep) as [j Hj].
    rewrite (apply_map_step_Ok n acc r j) in Hstep by done.
    injection Hstep as <-.
    apply IH in Hrest; [|by rewrite length_alter].
    rewrite Hrest, concat_alter_snoc.
    + by rewrite <- Permutation_middle.
    + apply word_index_range in Hj; [lia | done].
Qed.

Lemma concat_replicate_nil {A} (n : nat) :
  concat (replicate n ([] : list A)) = [].
Proof. induction n as [|n IH]; [done|]. by simpl. Qed.

(** ** Partition counts that are not positive *)

Lemma partitions_neg (n : Z) (corpus : list Document) :
  n < 0 → partitions corpus n = Ok [].
Proof.
  intros Hn. unfold partitions, Py.floordiv.
  destruct (Z.eqb_spec n 0); [lia|]. simpl.
  by rewrite range_nat, Z2Nat.nonpos by lia.
Qed.

Lemma partitions_zero (n : Z) (corpus : list Document) :
  n = 0 → partitions corpus n = Raise ZeroDivisionError.
Proof. by intros ->. Qed.

Lemma job_neg (corpus : list Document) (p : Z) :
  p < 0 → job corpus p = Ok ∅.
Proof.
  intros Hp. unfold job. rewrite partitions_neg by done. simpl.
  unfold preview, run_reducers. by rewrite range_nat, Z2Nat.nonpos by lia.
Qed.

(** ** Runs of the runtime *)

Lemma concat_perm {A} (ls ls' : list (list A)) :
  ls ≡ₚ ls' → concat ls ≡ₚ concat ls'.
Proof.
  induction 1 as [|l ls ls' _ IH|l1 l2 ls|ls1 ls2 ls3 _ IH1 _ IH2]; simpl.
  - done.
  - by rewrite IH.
  - by rewrite !app_assoc, (comm (++) l2 l1).
  - by rewrite IH1.
Qed.

Lemma total_for_perm (key : bytes) (rs rs' : list Pair) :
  rs ≡ₚ rs' → total_for key rs = total_for key rs'.
Proof.
  induction 1 as [|r rs rs' _ IH|r1 r2 rs|rs1 rs2 rs3 _ IH1 _ IH2].
  - done.
  - rewrite !total_for_cons. by rewrite IH.
  - rewrite !total_for_cons. repeat destruct (decide _); lia.
  - congruence.
Qed.

Section cluster_facts.
Context (map_fn : Document → list Pair) (reduce_fn : Dict → Pair → Dict).
Context (parts : list (list Document)) (n : Z).

(** What a reducer fetches from a consistent store is what the mappers
    return on the shards, in the order of the shards. *)
Lemma fetch_consistent (σ : Cluster.state) (j : nat) (buckets : list Bucket) :
  Cluster.consistent map_fn reduce_fn parts n σ →
  Cluster.fetch n σ j (seq 0 (length parts)) = Some buckets →
  Cluster.reducer_value map_fn reduce_fn parts n j
  = Some (Cluster.apply_reduce_with reduce_fn buckets).
Proof.
  intros [Hpub _] Hfetch%mapM_Some. unfold Cluster.reducer_value.
  rewrite (mapM_Some_2 _ parts buckets); [done|].
  apply Forall2_same_length_lookup in Hfetch as [Hlen Hfetch].
  rewrite length_seq in Hlen.
  apply Forall2_same_length_lookup. split; [done|].
  intros i shard bucket Hi Hb.
  pose proof (lookup_lt_Some _ _ _ Hi) as Hlt.
  specialize (Hfetch i i bucket (lookup_seq_lt _ _ _ Hlt) Hb).
  destruct (Cluster.published σ !! i) as [out|] eqn:Hout; [|done].
  simpl in Hfetch. destruct (Hpub i out Hout) as (shard' & Hi' & Hmap).
  assert (shard' = shard) as -> by congruence. by rewrite Hmap.
Qed.

Lemma step_consistent (σ σ' : Cluster.state) :
  Cluster.consistent map_fn reduce_fn parts n σ →
  Cluster.step map_fn reduce_fn parts n σ σ' →
  Cluster.consistent map_fn reduce_fn parts n σ'.
Proof.
  intros Hinv Hstep. pose proof Hinv as [Hpub Hred].
  destruct Hstep as [σ i shard out Hi Hmap|σ j buckets Hj Hf].
  - split; simpl; [|done]. intros i' out'.
    rewrite lookup_insert. destruct (decide (i = i')) as [<-|]; [|by auto].
    intros [= <-]. eauto.
  - split; simpl; [done|]. intros j' d.
    rewrite lookup_insert. destruct (decide (j = j')) as [<-|]; [|by auto].
    intros [= <-]. by apply fetch_consistent with σ.
Qed.

Lemma reachable_consistent (σ : Cluster.state) :
  Cluster.reachable map_fn reduce_fn parts n σ →
  Cluster.consistent map_fn reduce_fn parts n σ.
Proof.
  unfold Cluster.reachable. revert σ. apply rtc_ind_r.
  - split; intros k x; simpl; by rewrite lookup_empty.
  - intros σ σ' _ Hstep IH. by eapply step_consistent.
Qed.

(** The reducer results of a complete run are the values of a function
    of the shards. *)
Lemma complete_outputs (σ : Cluster.state) (r : Dict) :
  Cluster.consistent map_fn reduce_fn parts n σ →
  Cluster.job_result n σ = Some r →
  ∃ outputs,
    mapM (Cluster.reducer_value map_fn reduce_fn parts n)
      (seq 0 (Z.to_nat n)) = Some outputs
    ∧ r = merge_counts outputs.
Proof.
  intros [_ Hred]. unfold Cluster.job_result.
  destruct (mapM _ _) as [outputs|] eqn:Hout; [|done].
  intros [= <-]. exists outputs. split; [|done].
  apply mapM_Some. apply mapM_Some in Hout.
  eapply Forall2_impl; [exact Hout|]. intros j d. apply Hred.
Qed.

End cluster_facts.

(** What a reducer of the notebook's own map and reduce functions
    returns in a run: the driver could address the buckets, every word
    was routed, and the dictionary is the reduction of bucket [j] of
    every shard. *)
Lemma reducer_value_notebook (parts : list (list Document)) (n : Z) (j : nat)
    (d : Dict) :
  1 ≤ n → (j < Z.to_nat n)%nat →
  Cluster.reducer_value map_function reduce_step parts n j = Some d →
  (parts ≠ [] → n ≠ 1)
  ∧ Forall (routable n) (emitted (concat parts))
  ∧ d = reducer_output n parts j.
Proof.
  intros Hn Hj. unfold Cluster.reducer_value, reducer_output.
  destruct (mapM _ parts) as [buckets|] eqn:Hb; [|done].
  intros [= <-]. apply mapM_Some in Hb.
  assert (Forall2 (λ shard bucket,
            n ≠ 1 ∧ Forall (routable n) (emitted shard)
            ∧ bucket = bucket_of n j (emitted shard)) parts buckets) as Hall.
  { eapply Forall2_impl; [exact Hb|]. intros shard bucket.
    unfold Cluster.mapper_value.
    change (λ corpus, Cluster.apply_map_with map_function corpus n)
      with (λ corpus, apply_map corpus n).
    rewrite remote_options_apply_map by done.
    destruct (apply_map shard n) as [out|e] eqn:Hout; [|done].
    apply apply_map_Ok_inv in Hout as [Hr ->]; [|done].
    unfold Cluster.argument, returned_getitem.
    destruct (Z.eqb_spec n 1) as [->|Hne]; [done|].
    rewrite getitem_bucketize by done. by intros [= <-]. }
  clear Hb. split; [|split].
  - intros Hparts. destruct Hall as [|???? (Hne & _)]; done.
  - rewrite emitted_concat, Forall_concat, Forall_fmap.
    induction Hall as [|shard bucket parts buckets (_ & Hr & _) _ IH];
      by constructor.
  - change (Cluster.apply_reduce_with reduce_step) with apply_reduce.
    f_equal. induction Hall as [|shard bucket parts buckets (_ & _ & ->) _ IH];
      [done|]. by rewrite fmap_cons, IH.
Qed.

(** A complete run of the runtime on the notebook's own map and reduce
    functions returns what the driver cells compute. *)
Lemma complete_run_job (corpus : list Document) (p : Z)
    (parts : list (list Document)) (σ : Cluster.state) (r : Dict) :
  partitions corpus p = Ok parts →
  Cluster.reachable map_function reduce_step parts p σ →
  Cluster.job_result p σ = Some r →
  job corpus p = Ok r.
Proof.
  intros Hparts Hrun%reachable_consistent Hres.
  destruct (complete_outputs _ _ _ _ _ _ Hrun Hres) as (outputs & Hout & ->).
  destruct (decide (p < 0)) as [Hneg|Hnneg].
  { rewrite Z2Nat.nonpos in Hout by lia. injection Hout as <-.
    by apply job_neg. }
  destruct (decide (p = 0)) as [->|Hnz];
    [by rewrite partitions_zero in Hparts|].
  assert (1 ≤ p) as Hp by lia.
  assert (length parts = Z.to_nat p) as Hlen
    by (apply (partitions_length corpus p); done).
  apply mapM_Some in Hout.
  assert (parts ≠ []) as Hne by (intros ->; simpl in Hlen; lia).
  assert (p ≠ 1 ∧ Forall (routable p) (emitted (concat parts))) as [Hp1 Hr].
  { assert (seq 0 (Z.to_nat p) !! 0%nat = Some 0%nat) as H0
      by (apply lookup_seq_lt; lia).
    destruct (Forall2_lookup_l _ _ _ _ _ Hout H0) as (d & _ & Hd).
    apply reducer_value_notebook in Hd as (Hone & Hr & _); [|done|lia].
    split; [by apply Hone | done]. }
  rewrite job_run_tasks, Hparts. simpl.
  rewrite run_tasks_merge by (done || lia). do 2 f_equal.
  apply list_eq_same_length with (Z.to_nat p).
  - apply Forall2_length in Hout. by rewrite length_seq in Hout.
  - by rewrite length_fmap, length_seq.
  - intros j d1 d2 Hj Hd1 Hd2.
    destruct (Forall2_lookup_r _ _ _ _ _ Hout Hd2) as (j' & Hj' & Hval).
    apply lookup_seq in Hj' as [-> _].
    apply reducer_value_notebook in Hval as (_ & _ & ->); [|done|done].
    rewrite list_lookup_fmap, lookup_seq_lt in Hd1 by done.
    by injection Hd1 as <-.
Qed.

(** * The properties of the specification *)

(** ** C1: the pipeline against the naive word count *)

(** The document [c] of a three-document corpus cut in two never reaches
    a mapper; a word that is not UTF-8 stops the job; and with one
    partition the driver cannot address the bucket of the mapper. *)
Lemma roundtrip_counterexample :
  job [lit "a"; lit "b"; lit "c"] 2
    ≠ Ok (word_count [lit "a"; lit "b"; lit "c"])
  ∧ job [[xff]; lit "a"] 2 ≠ Ok (word_count [[xff]; lit "a"])
  ∧ job [lit "a"] 1 ≠ Ok (word_count [lit "a"]).
Proof.
  split; [|split].
  - rewrite (job_pos_Ok [lit "a"; lit "b"; lit "c"] 2);
      [|lia|apply (bool_decide_unpack _); vm_compute; exact I].
    intros Heq.
    apply (f_equal (λ outcome : result Dict,
                      match outcome with
                      | Ok counts => counts !! lit "c"
                      | Raise _ => None
                      end)) in Heq.
    cbv beta iota in Heq.
    rewrite !word_count_lookup in Heq. vm_compute in Heq. discriminate.
  - assert (job [[xff]; lit "a"] 2 = Raise UnicodeDecodeError) as ->
      by (vm_compute; reflexivity).
    discriminate.
  - assert (job [lit "a"] 1 = Raise TypeError) as ->
      by (vm_compute; reflexivity).
    discriminate.
Qed.

(** C1 (amended): when the partition count [p ≥ 2] divides the number
    of documents and every word of every document decodes as UTF-8, the
    job (partition, map, shuffle, reduce, merge) returns exactly the
    naive single-pass word count of the corpus. *)
Theorem roundtrip_word_count (corpus : list Document) (p : Z) :
  2 ≤ p → (p | Py.len corpus) → Forall decodable (words corpus) →
  job corpus p = Ok (word_count corpus).
Proof.
  intros Hp Hdiv Hd.
  assert (processed corpus p = corpus) as Hall.
  { unfold processed. rewrite chunk_size_divide by (done || lia).
    apply firstn_all. }
  rewrite <- Hall at 2. apply job_pos_Ok; [done|]. by rewrite Hall.
Qed.

Lemma roundtrip_word_count_witness :
  job [lit "to be"; lit "or not"; lit "To  bE "] 3
  = Ok (word_count [lit "to be"; lit "or not"; lit "To  bE "]).
Proof.
  apply (roundtrip_word_count
           [lit "to be"; lit "or not"; lit "To  bE "] 3).
  - lia.
  - exists 1. reflexivity.
  - apply (bool_decide_unpack _). vm_compute. exact I.
Defined.

(** ** C3: the scenario of the specification *)

(** C3: on the single document "to be or not to be" with two partitions
    the chunk size is [1 // 2 = 0], both shards are empty and the job
    returns the empty dictionary: none of the four words is counted. *)
Theorem scenario_two_partitions :
  job [lit "to be or not to be"] 2 = Ok ∅.
Proof. vm_compute. reflexivity. Qed.

(** ** C5: the empty corpus *)

(** C5: with one partition the job on the empty corpus does not return
    the empty dictionary: the one mapper hands back a bare reference, and
    the driver raises [TypeError] when it subscripts it for the reducer. *)
Theorem empty_corpus_one_partition : job [] 1 = Raise TypeError.
Proof. vm_compute. reflexivity. Qed.

(** ** C6: arguments the slicing rejects *)

(** Neither an empty corpus nor a negative count is rejected. *)
Lemma partitions_counterexample :
  partitions [] 1 = Ok [[]] ∧ partitions [lit "a"] (-1) = Ok [].
Proof. split; reflexivity. Qed.

(** C6 (amended): the slicing raises exactly when the partition count is
    zero, and then it is [ZeroDivisionError] from the chunk-size division
    and no shard is produced; a negative count yields an empty list of
    shards without error, and an empty corpus with a positive count [n]
    yields [n] empty shards without error. *)
Theorem partitions_outcome (corpus : list Document) (n : Z) :
  partitions corpus n
  = (if decide (n = 0) then Raise ZeroDivisionError
     else if decide (n < 0) then Ok []
     else Ok ((λ i : nat,
                 take (chunk_size corpus n)
                   (drop (i * chunk_size corpus n) corpus))
                <$> seq 0 (Z.to_nat n)))
  ∧ partitions [] n
    = (if decide (n = 0) then Raise ZeroDivisionError
       else Ok (replicate (Z.to_nat n) [])).
Proof.
  pose proof (partitions_neg n) as Hneg.
  pose proof (partitions_zero n) as Hzero.
  split.
  - destruct (decide (n = 0)); [by apply Hzero|].
    destruct (decide (n < 0)); [by apply Hneg|].
    apply partitions_pos. lia.
  - destruct (decide (n = 0)); [by apply Hzero|].
    destruct (decide (n < 0)) as [Hn|Hn].
    + by rewrite Hneg, Z2Nat.nonpos by lia.
    + rewrite partitions_pos by lia. f_equal.
      apply list_eq. intros i. rewrite list_lookup_fmap.
      destruct (decide (i < Z.to_nat n)%nat).
      * rewrite lookup_seq_lt, lookup_replicate_2 by done. simpl.
        by rewrite drop_nil, take_nil.
      * rewrite lookup_seq_ge by lia. symmetry.
        apply lookup_replicate_None. lia.
Qed.

(** ** C7: the reduce task *)

(** C7: whatever the input buckets, the dictionary returned by the
    reduce task maps every key that occurs in some input pair to the sum
    of the values of all the pairs with that key, over all the buckets,
    and holds no other key. *)
Theorem apply_reduce_sums (results : list Bucket) (key : bytes) :
  apply_reduce results !! key
  = if decide (key ∈ (concat results).*1)
    then Some (total_for key (concat results)) else None.
Proof.
  rewrite apply_reduce_flat, reduce_loop_lookup, lookup_empty.
  destruct (decide _); [f_equal; simpl; lia | done].
Qed.

(** ** C9: what the slicing keeps and what it drops *)

(** C9: for [p ≥ 1] the slicing returns exactly [p] shards; shard [i]
    is the run of [len(D) // p] consecutive documents that starts at
    position [i * (len(D) // p)], so the shards together are a prefix of
    the corpus; the [len(D) mod p] documents after that prefix are in no
    shard, and replacing them by any other (fewer than [p]) documents
    leaves the result of the job unchanged. *)
Theorem partitions_truncate (corpus : list Document) (p : Z) :
  1 ≤ p →
  let c := chunk_size corpus p in
  let dropped := drop (Z.to_nat p * c) corpus in
  ∃ shards,
    partitions corpus p = Ok shards
    ∧ length shards = Z.to_nat p
    ∧ (∀ (i : nat) shard, shards !! i = Some shard →
         shard = take c (drop (i * c) corpus)
         ∧ Py.len shard = Py.len corpus / p)
    ∧ corpus = concat shards ++ dropped
    ∧ Py.len dropped = Py.len corpus mod p
    ∧ (∀ tail : list Document, (length tail < Z.to_nat p)%nat →
         job (concat shards ++ tail) p = job corpus p).
Proof.
  intros Hp c dropped. eexists. split; [by apply partitions_pos|].
  fold c. pose proof (chunk_size_le corpus p Hp) as Hle. fold c in Hle.
  split; [by rewrite length_fmap, length_seq|].
  split; [|split; [|split]].
  - intros i shard. rewrite list_lookup_fmap.
    destruct (seq 0 (Z.to_nat p) !! i) as [k|] eqn:Hk; [|done].
    apply lookup_seq in Hk as [-> Hi]. intros [= <-]. split; [done|].
    unfold Py.len. rewrite length_take_le.
    + unfold c, chunk_size. rewrite Z2Nat.id; [done|].
      apply Z.div_pos; unfold Py.len; lia.
    + rewrite length_drop. simpl. nia.
  - rewrite concat_chunks. symmetry. apply take_drop.
  - by apply length_dropped.
  - intros tail Htail. rewrite concat_chunks, !job_run_tasks.
    change (take (Z.to_nat p * c) corpus) with (processed corpus p).
    by rewrite (partitions_tail corpus tail p).
Qed.

Lemma partitions_truncate_witness :
  ∃ shards,
    partitions [lit "a"; lit "b"; lit "c"; lit "d"; lit "e"] 2 = Ok shards
    ∧ length shards = 2%nat
    ∧ shards !! 1%nat = Some [lit "c"; lit "d"]
    ∧ job (concat shards ++ [lit "z"]) 2
      = job [lit "a"; lit "b"; lit "c"; lit "d"; lit "e"] 2.
Proof.
  destruct (partitions_truncate
              [lit "a"; lit "b"; lit "c"; lit "d"; lit "e"] 2)
    as (shards & Hshards & Hlen & _ & _ & _ & Htail); [lia|].
  exists shards. split; [done|]. split; [done|]. split.
  - injection Hshards as <-. reflexivity.
  - apply Htail. simpl. lia.
Defined.

(** ** C2: the bucket of a key *)



(** ** C8: the buckets of one mapper *)

(** A word that is not UTF-8 makes the mapper raise: it returns no
    bucket at all. *)
Lemma apply_map_counterexample :
  apply_map [[xff]] 1 = Raise UnicodeDecodeError.
Proof. reflexivity. Qed.

(** C8 (amended): for every shard whose words all decode as UTF-8 and
    every [n ≥ 1], the mapper returns exactly [n] buckets; the pairs of
    all the buckets together are, as a multiset, the pairs the map
    function yields over the documents of the shard, so that every pair
    is in exactly one bucket; and that bucket is the one of its key. *)
Theorem apply_map_buckets (shard : list Document) (n : Z) :
  1 ≤ n → Forall decodable (words shard) →
  ∃ out,
    apply_map shard n = Ok out
    ∧ length out = Z.to_nat n
    ∧ concat out ≡ₚ emitted shard
    ∧ (∀ (j : nat) bucket r, out !! j = Some bucket → r ∈ bucket →
         word_index r.1 n = Ok (Z.of_nat j)).
Proof.
  intros Hn Hd. apply routable_emitted with (n := n) in Hd; [|lia].
  exists (bucketize n (emitted shard)).
  pose proof (apply_map_Ok shard n Hn Hd) as Hout.
  split; [done|]. split; [|split].
  - unfold bucketize. by rewrite length_fmap, length_seq.
  - rewrite apply_map_flat in Hout.
    apply map_loop_perm in Hout; [|done|by rewrite length_replicate].
    by rewrite concat_replicate_nil in Hout.
  - intros j bucket r Hj Hin. unfold bucketize in Hj.
    rewrite list_lookup_fmap in Hj.
    destruct (seq 0 (Z.to_nat n) !! j) as [k|] eqn:Hk; [|done].
    apply lookup_seq in Hk as [-> _]. injection Hj as <-.
    by apply list_elem_of_filter in Hin as [Hidx _].
Qed.

Lemma apply_map_buckets_witness :
  ∃ out,
    apply_map [lit "to be"; lit "or not to be"] 2 = Ok out
    ∧ length out = 2%nat
    ∧ concat out ≡ₚ emitted [lit "to be"; lit "or not to be"].
Proof.
  destruct (apply_map_buckets [lit "to be"; lit "or not to be"] 2)
    as (out & Hout & Hlen & Hperm & _).
  - lia.
  - apply (bool_decide_unpack _). vm_compute. exact I.
  - exists out. split; [exact Hout|]. split; [exact Hlen | exact Hperm].
Defined.

(** ** C10: the reducers share no key *)

(** C10: after any run of the mappers and of the reducers, two reducers
    with distinct indices have disjoint key sets, and the merged
    dictionary holds every entry of every reducer unchanged: the merge
    overwrites nothing. *)
Theorem reducers_disjoint (parts : list (list Document)) (n : Z)
    (map_results : list (list Bucket)) (outputs : list Dict) :
  run_mappers parts n = Ok map_results →
  run_reducers map_results n = Ok outputs →
  (∀ (i j : nat) (out_i out_j : Dict),
     i ≠ j → outputs !! i = Some out_i → outputs !! j = Some out_j →
     dom out_i ## dom out_j)
  ∧ (∀ (j : nat) (out_j : Dict) key v,
       outputs !! j = Some out_j → out_j !! key = Some v →
       merge_counts outputs !! key = Some v).
Proof.
  intros Hmap Hred. destruct (decide (1 ≤ n)) as [Hn|Hn].
  - destruct (tasks_outputs _ _ _ _ Hn Hmap Hred) as (Hr & -> & ->).
    assert (∀ (i j : nat) key v, i ≠ j →
      reducer_output n parts i !! key = Some v →
      reducer_output n parts j !! key = None) as Hdisj.
    { intros i j key v Hij. rewrite !reducer_output_lookup.
      destruct (decide _) as [[_ Hi]|]; [|done]. intros _.
      rewrite decide_False; [done|]. intros [_ Hj].
      rewrite Hi in Hj. injection Hj. lia. }
    split.
    + intros i j out_i out_j Hij [_ ->]%outputs_lookup [_ ->]%outputs_lookup.
      apply elem_of_disjoint. intros key [v Hv]%elem_of_dom [w Hw]%elem_of_dom.
      by rewrite (Hdisj i j key v) in Hw.
    + intros j out_j key v Hj Hv.
      rewrite (merge_counts_unique _ j out_j); [done|done|].
      intros i out_i [_ ->]%outputs_lookup Hij.
      apply outputs_lookup in Hj as [_ ->]. by apply (Hdisj j i key v).
  - apply run_reducers_nonpos in Hred as ->; [|lia]. by split.
Qed.

Lemma reducers_disjoint_witness :
  ∃ outputs : list Dict,
    run_tasks [[lit "to be"]; [lit "or to"]] 2 = Ok (merge_counts outputs)
    ∧ ∀ (i j : nat) (out_i out_j : Dict),
        i ≠ j → outputs !! i = Some out_i → outputs !! j = Some out_j →
        dom out_i ## dom out_j.
Proof.
  pose (parts := [[lit "to be"]; [lit "or to"]]).
  assert (Forall (routable 2) (emitted (concat parts))) as Hr.
  { apply routable_emitted; [lia|].
    apply (bool_decide_unpack _). vm_compute. exact I. }
  assert (run_mappers parts 2
          = Ok ((λ shard, bucketize 2 (emitted shard)) <$> parts)) as Hmap
    by (apply run_mappers_Ok; [lia | exact Hr]).
  assert (run_reducers ((λ shard, bucketize 2 (emitted shard)) <$> parts) 2
          = Ok (reducer_output 2 parts <$> seq 0 (Z.to_nat 2))) as Hred
    by (apply run_reducers_Ok; lia).
  destruct (reducers_disjoint parts 2 _ _ Hmap Hred) as [Hdisj _].
  exists (reducer_output 2 parts <$> seq 0 (Z.to_nat 2)).
  split; [|exact Hdisj].
  apply (run_tasks_merge parts 2); [lia | reflexivity | exact Hr].
Defined.

(** ** C4: two runs of the job *)



(** * Further properties of the notebook *)

(** ** Bytes, words and case *)

Lemma isspace_lower_byte (c : byte) :
  Py.isspace (Py.lower_byte c) = Py.isspace c.
Proof. by destruct c. Qed.

Lemma is_upper_lower_byte (c : byte) : Py.is_upper (Py.lower_byte c) = false.
Proof. by destruct c. Qed.

Lemma lower_nil_inv (s : bytes) : Py.lower s = [] → s = [].
Proof. by destruct s. Qed.

Lemma rev_lower (s : bytes) : rev (Py.lower s) = Py.lower (rev s).
Proof.
  unfold Py.lower. induction s as [|c s IH]; [done|].
  csimpl. by rewrite IH, fmap_app.
Qed.

(** Lowering the text lowers its words one by one. *)
Lemma split_from_lower (cur s : bytes) :
  Py.split_from (Py.lower cur) (Py.lower s)
  = Py.lower <$> Py.split_from cur s.
Proof.
  revert cur. induction s as [|c s IH]; intros cur; simpl.
  - destruct cur as [|c' cur]; [done|].
    change (Py.lower_byte c' :: Py.lower cur) with (Py.lower (c' :: cur)).
    by rewrite rev_lower.
  - rewrite isspace_lower_byte. destruct (Py.isspace c).
    + destruct cur as [|c' cur]; [apply (IH [])|].
      change (Py.lower_byte c' :: Py.lower cur) with (Py.lower (c' :: cur)).
      rewrite rev_lower, fmap_cons. f_equal. apply (IH []).
    + apply (IH (c :: cur)).
Qed.

Lemma split_lower (s : bytes) :
  Py.split (Py.lower s) = Py.lower <$> Py.split s.
Proof. apply (split_from_lower [] s). Qed.

Lemma split_from_no_space (cur s : bytes) :
  no_space cur → Forall no_space (Py.split_from cur s).
Proof.
  revert cur. induction s as [|c s IH]; intros cur Hcur; simpl.
  - destruct cur as [|c' cur]; [constructor|].
    constructor; [|constructor]. by apply Forall_rev.
  - destruct (Py.isspace c) eqn:Hc.
    + destruct cur as [|c' cur]; [by apply IH|].
      constructor; [by apply Forall_rev | by apply IH, Forall_nil].
    + apply IH. by constructor.
Qed.

(** A text without whitespace is one word. *)
Lemma split_from_word (cur w : bytes) :
  no_space w → cur ++ w ≠ [] → Py.split_from cur w = [rev cur ++ w].
Proof.
  revert cur. induction w as [|c w IH]; intros cur Hw Hne; simpl.
  - rewrite app_nil_r in *. by destruct cur.
  - apply Forall_cons in Hw as [-> Hw].
    rewrite IH; [|done|done]. simpl. by rewrite <- app_assoc.
Qed.

Lemma split_word (w : bytes) : no_space w → w ≠ [] → Py.split w = [w].
Proof. intros Hw Hne. by apply (split_from_word [] w). Qed.

Lemma no_space_lower (w : bytes) : no_space w → no_space (Py.lower w).
Proof.
  unfold no_space, Py.lower. rewrite Forall_fmap. intros Hw.
  eapply Forall_impl; [exact Hw|]. intros c Hc. simpl.
  by rewrite isspace_lower_byte.
Qed.


(** ** X1: what the map function yields *)

(** X1: every pair the map function yields has the value 1 and a key
    that is not empty, holds no whitespace and holds no ASCII upper-case
    letter. *)
Theorem map_function_pairs (document : Document) (key : bytes) (value : Z) :
  (key, value) ∈ map_function document →
  value = 1 ∧ key ≠ [] ∧ no_space key
  ∧ Forall (λ c, Py.is_upper c = false) key.
Proof.
  unfold map_function. rewrite split_lower, <- list_fmap_compose.
  intros (w & [= -> ->] & Hw)%list_elem_of_fmap. split; [done|].
  pose proof (proj1 (Forall_forall _ _) (split_from_nonempty [] document) w Hw)
    as Hne.
  pose proof (proj1 (Forall_forall _ _)
                (split_from_no_space [] document (Forall_nil_2 _)) w Hw) as Hsp.
  split; [|split].
  - intros Hnil%lower_nil_inv. by apply Hne.
  - by apply no_space_lower.
  - unfold Py.lower. apply Forall_fmap, Forall_forall. intros c _.
    apply is_upper_lower_byte.
Qed.

Lemma map_function_pairs_witness :
  1 = 1 ∧ lit "be" ≠ [] ∧ no_space (lit "be")
  ∧ Forall (λ c, Py.is_upper c = false) (lit "be").
Proof.
  apply (map_function_pairs (lit "To  BE ") (lit "be") 1).
  vm_compute. apply list_elem_of_further, list_elem_of_here.
Defined.

(** ** X2: the documents of the loaded corpus *)

Lemma load_corpus_documents (text : bytes) :
  Forall (λ d, d ≠ [] ∧ no_space d) (load_corpus text).
Proof.
  unfold load_corpus, Py.split. apply Forall_forall. intros d Hd. split.
  - by apply (proj1 (Forall_forall _ _) (split_from_nonempty [] text)).
  - by apply (proj1 (Forall_forall _ _)
                (split_from_no_space [] text (Forall_nil_2 _))).
Qed.

Lemma map_function_word (d : Document) :
  d ≠ [] → no_space d → map_function d = [(Py.lower d, 1)].
Proof.
  intros Hne Hsp. unfold map_function. rewrite split_word; [done| |].
  - by apply no_space_lower.
  - intros Hnil%lower_nil_inv. by apply Hne.
Qed.

(** X2: a document of the corpus the notebook loads is one word of the
    text, so the map function yields exactly one pair for it, the word in
    lower case with the value 1; the mappers therefore meet as many pairs
    as the corpus has documents. *)
Theorem load_corpus_one_pair (text : bytes) :
  Forall (λ d, map_function d = [(Py.lower d, 1)]) (load_corpus text)
  ∧ emitted (load_corpus text) = (λ d, (Py.lower d, 1)) <$> load_corpus text.
Proof.
  pose proof (load_corpus_documents text) as Hdocs.
  assert (Forall (λ d, map_function d = [(Py.lower d, 1)])
            (load_corpus text)) as Hone.
  { eapply Forall_impl; [exact Hdocs|]. intros d [Hne Hsp].
    by apply map_function_word. }
  split; [done|]. unfold emitted. clear Hdocs.
  induction Hone as [|d ds Hd _ IH]; [done|]. csimpl. by rewrite Hd, IH.
Qed.

(** ** X3: from the text to the counts *)

Lemma words_load_corpus (text : bytes) :
  words (load_corpus text) = Py.split (Py.lower text).
Proof.
  rewrite split_lower. unfold words.
  pose proof (load_corpus_documents text) as Hdocs.
  unfold load_corpus in *.
  induction Hdocs as [|d ds [Hne Hsp] _ IH]; [done|]. csimpl.
  rewrite IH, split_word; [done| |].
  - by apply no_space_lower.
  - intros Hnil%lower_nil_inv. by apply Hne.
Qed.

(** X3: when the notebook loads its corpus from a text whose words all
    decode as UTF-8 and the partition count [p ≥ 2] divides the number of
    words, the job returns, for every word of the lower-cased text, the
    number of times it occurs there, and nothing else. *)
Theorem job_of_text (text : bytes) (p : Z) :
  2 ≤ p → (p | Py.len (load_corpus text)) →
  Forall decodable (Py.split (Py.lower text)) →
  ∃ counts,
    job (load_corpus text) p = Ok counts
    ∧ ∀ w, counts !! w
           = if decide (w ∈ Py.split (Py.lower text))
             then Some (occurrences w (Py.split (Py.lower text))) else None.
Proof.
  intros Hp Hdiv Hd.
  assert (processed (load_corpus text) p = load_corpus text) as Hall.
  { unfold processed. rewrite chunk_size_divide by (done || lia).
    apply firstn_all. }
  exists (word_count (load_corpus text)). split.
  - rewrite <- Hall at 2. apply job_pos_Ok; [done|].
    by rewrite Hall, words_load_corpus.
  - intros w. by rewrite word_count_lookup, words_load_corpus.
Qed.

Lemma job_of_text_witness :
  ∃ counts,
    job (load_corpus (lit "To be or  not to BE")) 3 = Ok counts
    ∧ counts !! lit "be" = Some 2.
Proof.
  destruct (job_of_text (lit "To be or  not to BE") 3)
    as (counts & Hjob & Hcounts).
  - lia.
  - exists 2. reflexivity.
  - apply (bool_decide_unpack _). vm_compute. exact I.
  - exists counts. split; [exact Hjob|]. rewrite Hcounts. reflexivity.
Defined.

(** ** The mapper: order, errors, composition *)

Lemma word_index_Raise (w : bytes) (n : Z) (e : exn) :
  n ≠ 0 → w ≠ [] → word_index w n = Raise e → e = UnicodeDecodeError.
Proof.
  intros Hn Hw. unfold word_index, Py.decode.
  destruct (Py.decode_utf8 w) as [cs|] eqn:Hcs; simpl; [|by intros [= <-]].
  pose proof (decode_utf8_nonempty w cs Hw Hcs).
  destruct cs as [|c cs]; [done|]. simpl. unfold Py.mod_.
  by destruct (Z.eqb_spec n 0).
Qed.

Lemma emitted_keys_nonempty (corpus : list Document) :
  Forall (λ r : Pair, r.1 ≠ []) (emitted corpus).
Proof.
  rewrite emitted_words, Forall_fmap. apply words_nonempty.
Qed.

Lemma map_loop_Raise (n : Z) (rs : list Pair) (acc : list Bucket) :
  1 ≤ n → length acc = Z.to_nat n →
  Forall (λ r : Pair, r.1 ≠ []) rs → ¬ Forall (routable n) rs →
  for_each (apply_map_step n) acc rs = Raise UnicodeDecodeError.
Proof.
  intros Hn Hlen Hne. revert acc Hlen.
  induction Hne as [|r rs Hr _ IH]; intros acc Hlen Hnot.
  - by destruct Hnot.
  - simpl. destruct (word_index r.1 n) as [j|e] eqn:Hj.
    + rewrite (apply_map_step_Ok n acc r j) by done. simpl.
      apply IH; [by rewrite length_alter|].
      intros Hrs. apply Hnot. constructor; [by exists j | done].
    + unfold apply_map_step. rewrite Hj. simpl.
      by rewrite (word_index_Raise r.1 n e) by (done || lia).
Qed.

Lemma apply_map_outcome (shard : list Document) (n : Z) :
  1 ≤ n →
  apply_map shard n
  = if decide (Forall decodable (words shard))
    then Ok (bucketize n (emitted shard)) else Raise UnicodeDecodeError.
Proof.
  intros Hn. destruct (decide _) as [Hd|Hd].
  - apply apply_map_Ok; [done|]. apply routable_emitted; [lia | done].
  - rewrite apply_map_flat. apply map_loop_Raise.
    + done.
    + by rewrite length_replicate.
    + apply emitted_keys_nonempty.
    + intros Hr. apply Hd. apply routable_emitted in Hr; [done | lia].
Qed.

(** X4: for [n ≥ 1], bucket [j] of a mapper holds exactly the pairs whose
    key has index [j], in the order the map function yielded them over
    the shard. *)
Theorem apply_map_bucket_order (shard : list Document) (n : Z)
    (out : list Bucket) (j : nat) (bucket : Bucket) :
  1 ≤ n → apply_map shard n = Ok out → out !! j = Some bucket →
  bucket
  = filter (λ r : Pair, word_index r.1 n = Ok (Z.of_nat j)) (emitted shard).
Proof.
  intros Hn [_ ->]%apply_map_Ok_inv; [|done].
  unfold bucketize. rewrite list_lookup_fmap.
  destruct (seq 0 (Z.to_nat n) !! j) as [k|] eqn:Hk; [|done].
  apply lookup_seq in Hk as [-> _]. by intros [= <-].
Qed.

Lemma apply_map_bucket_order_witness :
  [(lit "to", 1); (lit "be", 1); (lit "not", 1); (lit "to", 1)]
  = filter (λ r : Pair, word_index r.1 2 = Ok (Z.of_nat 0))
      (emitted [lit "to be"; lit "or not to"]).
Proof.
  apply (apply_map_bucket_order [lit "to be"; lit "or not to"] 2
           [[(lit "to", 1); (lit "be", 1); (lit "not", 1); (lit "to", 1)];
            [(lit "or", 1)]] 0%nat).
  - lia.
  - reflexivity.
  - reflexivity.
Defined.

(** X5: for [n ≥ 1] a mapper returns its buckets exactly when every word
    of its shard decodes as UTF-8; otherwise it raises
    [UnicodeDecodeError], and never any other exception. *)
Theorem apply_map_raises (shard : list Document) (n : Z) :
  1 ≤ n →
  (Forall decodable (words shard) ∧ ∃ out, apply_map shard n = Ok out)
  ∨ (¬ Forall decodable (words shard)
     ∧ apply_map shard n = Raise UnicodeDecodeError).
Proof.
  intros Hn. rewrite apply_map_outcome by done.
  destruct (decide _); [left | right]; eauto.
Qed.

Lemma apply_map_raises_witness :
  (Forall decodable (words [lit "ok"; [x61; xff]])
   ∧ ∃ out, apply_map [lit "ok"; [x61; xff]] 2 = Ok out)
  ∨ (¬ Forall decodable (words [lit "ok"; [x61; xff]])
     ∧ apply_map [lit "ok"; [x61; xff]] 2 = Raise UnicodeDecodeError).
Proof. apply (apply_map_raises [lit "ok"; [x61; xff]] 2). lia. Defined.

Lemma subscript_empty (i : Z) : Py.subscript 0 i = Raise IndexError.
Proof.
  unfold Py.subscript. rewrite Z.add_0_r.
  destruct (Z.ltb_spec i 0);
    destruct (Z.leb_spec 0 i); destruct (Z.ltb_spec i 0); done || lia.
Qed.

Lemma apply_map_step_nonpos (n : Z) (w : bytes) (v : Z) :
  n ≤ 0 → w ≠ [] →
  apply_map_step n [] (w, v)
  = Raise (if decide (decodable w)
           then if decide (n = 0) then ZeroDivisionError else IndexError
           else UnicodeDecodeError).
Proof.
  intros Hn Hw. unfold apply_map_step, word_index, Py.decode. cbn [fst].
  destruct (decide (decodable w)) as [[cs Hcs]|Hnd].
  - rewrite Hcs. pose proof (decode_utf8_nonempty w cs Hw Hcs).
    destruct cs as [|c cs]; [done|].
    cbn [mbind result_bind Py.first_char]. unfold Py.mod_.
    destruct (Z.eqb_spec n 0) as [->|Hn0].
    + by rewrite decide_True.
    + rewrite decide_False by done. cbn [mbind result_bind].
      unfold append_to, Py.len. cbn [length Z.of_nat].
      by rewrite subscript_empty.
  - destruct (Py.decode_utf8 w) as [cs|] eqn:Hcs; [|done].
    destruct Hnd. by exists cs.
Qed.

(** X6: with a partition count [n ≤ 0] a mapper has no bucket to fill.
    On a shard without any word it returns the empty list of buckets; as
    soon as the shard has a word it raises at the first one:
    [UnicodeDecodeError] if that word does not decode, else
    [ZeroDivisionError] when [n = 0] and [IndexError] when [n < 0]. *)
Theorem apply_map_nonpos (shard : list Document) (n : Z) :
  n ≤ 0 →
  apply_map shard n
  = match words shard with
    | [] => Ok []
    | w :: _ =>
        Raise (if decide (decodable w)
               then if decide (n = 0) then ZeroDivisionError else IndexError
               else UnicodeDecodeError)
    end.
Proof.
  intros Hn. rewrite apply_map_flat, emitted_words, Z2Nat.nonpos by done.
  pose proof (words_nonempty shard) as Hne.
  destruct (words shard) as [|w ws]; [done|].
  apply Forall_cons in Hne as [Hw _].
  rewrite fmap_cons. cbn [for_each replicate].
  by rewrite apply_map_step_nonpos.
Qed.

Lemma apply_map_nonpos_witness :
  apply_map [lit " "; lit "to be"] (-2)
  = match words [lit " "; lit "to be"] with
    | [] => Ok []
    | w :: _ =>
        Raise (if decide (decodable w)
               then if decide (-2 = 0) then ZeroDivisionError else IndexError
               else UnicodeDecodeError)
    end.
Proof. apply (apply_map_nonpos [lit " "; lit "to be"] (-2)). lia. Defined.

Lemma bucketize_app (n : Z) (rs1 rs2 : list Pair) :
  bucketize n (rs1 ++ rs2)
  = zip_with (++) (bucketize n rs1) (bucketize n rs2).
Proof.
  unfold bucketize. apply list_eq. intros j.
  rewrite lookup_zip_with, !list_lookup_fmap.
  destruct (seq 0 (Z.to_nat n) !! j); simpl; [|done].
  by rewrite bucket_of_app.
Qed.

(** X7: mapping two shards one after the other is mapping them
    separately and appending the buckets index by index: for [n ≥ 1],
    when the mappers of two shards return, the mapper of their
    concatenation returns bucket [j] of the first followed by bucket [j]
    of the second. *)
Theorem apply_map_app (shard1 shard2 : list Document) (n : Z)
    (out1 out2 : list Bucket) :
  1 ≤ n → apply_map shard1 n = Ok out1 → apply_map shard2 n = Ok out2 →
  apply_map (shard1 ++ shard2) n = Ok (zip_with (++) out1 out2).
Proof.
  intros Hn [Hr1 ->]%apply_map_Ok_inv [Hr2 ->]%apply_map_Ok_inv; try done.
  rewrite apply_map_Ok; [|done|].
  - by rewrite emitted_app, bucketize_app.
  - rewrite emitted_app. by apply Forall_app.
Qed.

Lemma apply_map_app_witness :
  apply_map ([lit "to be"] ++ [lit "or to"]) 2
  = Ok (zip_with (++) [[(lit "to", 1); (lit "be", 1)]; []]
                      [[(lit "to", 1)]; [(lit "or", 1)]]).
Proof.
  apply (apply_map_app [lit "to be"] [lit "or to"] 2);
    [lia | reflexivity | reflexivity].
Defined.

(** ** The reducer: composition and order *)

Lemma total_for_app (key : bytes) (rs1 rs2 : list Pair) :
  total_for key (rs1 ++ rs2) = total_for key rs1 + total_for key rs2.
Proof.
  induction rs1 as [|r rs1 IH]; [done|].
  rewrite <- app_comm_cons, !total_for_cons. destruct (decide _); lia.
Qed.

(** X8: reducing two lists of buckets together is reducing each and
    adding the counters key by key: a key of both has the sum of its two
    counters, a key of one keeps its counter. *)
Theorem apply_reduce_app (results1 results2 : list Bucket) :
  apply_reduce (results1 ++ results2)
  = union_with (λ v1 v2, Some (v1 + v2))
      (apply_reduce results1) (apply_reduce results2).
Proof.
  apply map_eq. intros key.
  rewrite lookup_union_with, !apply_reduce_lookup, concat_app, fmap_app.
  rewrite total_for_app.
  destruct (decide (key ∈ (concat results1).*1)) as [H1|H1];
    destruct (decide (key ∈ (concat results2).*1)) as [H2|H2]; simpl.
  - by rewrite decide_True by (apply elem_of_app; by left).
  - rewrite decide_True by (apply elem_of_app; by left).
    rewrite (total_for_absent key (concat results2)) by done.
    f_equal. lia.
  - rewrite decide_True by (apply elem_of_app; by right).
    by rewrite (total_for_absent key (concat results1)) by done.
  - rewrite decide_False; [done|]. by intros [?|?]%elem_of_app.
Qed.

(** X9: the dictionary a reducer returns depends only on the multiset of
    the pairs it receives: neither the order of the buckets, nor the way
    the pairs are spread over them, nor the order of the pairs inside a
    bucket changes it. *)
Theorem apply_reduce_multiset (results1 results2 : list Bucket) :
  concat results1 ≡ₚ concat results2 →
  apply_reduce results1 = apply_reduce results2.
Proof.
  intros Hperm. apply map_eq. intros key.
  rewrite !apply_reduce_lookup, (total_for_perm key _ _ Hperm).
  destruct (decide (key ∈ (concat results1).*1)) as [Hin|Hnin].
  - by rewrite decide_True by by rewrite <- Hperm.
  - by rewrite decide_False by by rewrite <- Hperm.
Qed.

Lemma apply_reduce_multiset_witness :
  apply_reduce [[(lit "a", 1); (lit "b", 2)]; [(lit "a", 3)]]
  = apply_reduce [[(lit "a", 3); (lit "a", 1)]; []; [(lit "b", 2)]].
Proof.
  apply apply_reduce_multiset. symmetry.
  apply (Permutation_cons_append [(lit "a", 1); (lit "b", 2)] (lit "a", 3)).
Defined.

(** ** Merging: overlapping keys *)

(** X10: when several reducer dictionaries hold the same key, the merged
    dictionary keeps the entry of the last of them: the dict
    comprehension replaces earlier entries. *)
Theorem merge_counts_last_wins (before after : list Dict) (output : Dict)
    (key : bytes) (v : Z) :
  output !! key = Some v →
  Forall (λ later : Dict, later !! key = None) after →
  merge_counts (before ++ output :: after) !! key = Some v.
Proof.
  intros Hv. induction after as [|later after IH] using rev_ind; intros Hafter.
  - rewrite merge_counts_snoc. by apply lookup_union_Some_l.
  - apply Forall_app in Hafter as [Hafter [Hlater _]%Forall_cons].
    replace (before ++ output :: after ++ [later])
      with ((before ++ output :: after) ++ [later])
      by (by rewrite <- app_assoc).
    rewrite merge_counts_snoc, lookup_union_r by done. by apply IH.
Qed.

Lemma merge_counts_last_wins_witness :
  merge_counts ([{[lit "a" := 1]}] ++ {[lit "a" := 2]} :: [{[lit "b" := 5]}])
    !! lit "a" = Some 2.
Proof.
  apply (merge_counts_last_wins [{[lit "a" := 1]}] [{[lit "b" := 5]}]
           {[lit "a" := 2]} (lit "a") 2).
  - vm_compute. reflexivity.
  - repeat constructor.
Defined.

(** X11: the keys of the merged dictionary are the keys of all the
    reducer dictionaries taken together. *)
Theorem merge_counts_dom (outputs : list Dict) :
  dom (merge_counts outputs) = ⋃ (dom <$> outputs).
Proof.
  induction outputs as [|output outputs IH] using rev_ind.
  - apply dom_empty_L.
  - rewrite merge_counts_snoc, dom_union_L, IH, fmap_app, union_list_app_L.
    simpl. rewrite (right_id_L ∅ (∪)). apply (comm_L (∪)).
Qed.

(** ** Slicing: what gets lost *)

(** X12: for [p ≥ 1] the shards together are the whole corpus exactly
    when [p] divides the number of documents. *)
Theorem partitions_lossless_iff (corpus : list Document) (p : Z)
    (shards : list (list Document)) :
  1 ≤ p → partitions corpus p = Ok shards →
  (concat shards = corpus ↔ Py.len corpus `mod` p = 0).
Proof.
  intros Hp Hshards. rewrite (partitions_concat corpus p shards) by done.
  rewrite <- (length_dropped corpus p) by done. unfold processed, Py.len.
  set (k := (Z.to_nat p * chunk_size corpus p)%nat).
  pose proof (take_drop k corpus) as Htd. split.
  - intros Heq. rewrite Heq in Htd.
    apply (f_equal length) in Htd. rewrite length_app in Htd. lia.
  - intros Hlen. assert (drop k corpus = []) as Hnil
      by (apply length_zero_iff_nil; lia).
    by rewrite Hnil, app_nil_r in Htd.
Qed.

Lemma partitions_lossless_iff_witness :
  concat [[lit "a"]; [lit "b"]] = [lit "a"; lit "b"; lit "c"]
  ↔ Py.len [lit "a"; lit "b"; lit "c"] `mod` 2 = 0.
Proof.
  apply (partitions_lossless_iff [lit "a"; lit "b"; lit "c"] 2);
    [lia | reflexivity].
Defined.

(** X13: with at least two partitions, and more partitions than
    documents, the chunk size is zero, so no document reaches a mapper
    and the job returns the empty dictionary, whatever the documents
    hold. *)
Theorem job_more_partitions_than_documents (corpus : list Document) (p : Z) :
  2 ≤ p → Py.len corpus < p → job corpus p = Ok ∅.
Proof.
  intros Hp Hlt.
  assert (processed corpus p = []) as Hnil.
  { unfold processed, chunk_size.
    rewrite Z.div_small by (unfold Py.len in *; lia).
    by rewrite Nat.mul_0_r. }
  rewrite job_pos_Ok; rewrite ?Hnil; [done | done | constructor].
Qed.

Lemma job_more_partitions_than_documents_witness :
  job [lit "to be"; [xff]] 3 = Ok ∅.
Proof.
  apply (job_more_partitions_than_documents [lit "to be"; [xff]] 3).
  - lia.
  - vm_compute. reflexivity.
Defined.

(** ** The job: every outcome *)

(** X14: the job raises [ZeroDivisionError] when the partition count is
    zero, and returns the empty dictionary, without error and without
    running any task, when it is negative. *)
Theorem job_nonpos (corpus : list Document) (p : Z) :
  p ≤ 0 →
  job corpus p = if decide (p = 0) then Raise ZeroDivisionError else Ok ∅.
Proof.
  intros Hp. destruct (decide (p = 0)) as [->|Hne]; [done|].
  apply job_neg. lia.
Qed.

Lemma job_nonpos_witness :
  job [lit "to be"] (-3)
  = if decide (-3 = 0) then Raise ZeroDivisionError else Ok ∅.
Proof. apply (job_nonpos [lit "to be"] (-3)). lia. Defined.

(** X24: with at least two partitions the job on the empty corpus raises
    nothing and returns the empty dictionary. *)
Theorem job_empty_corpus (p : Z) : 2 ≤ p → job [] p = Ok ∅.
Proof.
  intros Hp.
  assert (processed [] p = []) as Hnil by (unfold processed; apply take_nil).
  rewrite job_pos_Ok; rewrite ?Hnil; [done | done | constructor].
Qed.

Lemma job_empty_corpus_witness : job [] 2 = Ok ∅.
Proof. apply (job_empty_corpus 2). lia. Defined.

Lemma comprehension_Raise {X Y} (f : X → result Y) (xs : list X) (e : exn) :
  Forall (λ x, (∃ y, f x = Ok y) ∨ f x = Raise e) xs →
  Exists (λ x, f x = Raise e) xs →
  comprehension f xs = Raise e.
Proof.
  induction 1 as [|x xs [[y Hy]|Hx] _ IH]; intros Hex.
  - by apply Exists_nil in Hex.
  - apply Exists_cons in Hex as [Hx|Hex]; [congruence|].
    simpl. by rewrite Hy, IH.
  - simpl. by rewrite Hx.
Qed.

Lemma words_concat (parts : list (list Document)) :
  words (concat parts) = concat (words <$> parts).
Proof.
  unfold words. induction parts as [|shard parts IH]; [done|].
  csimpl. by rewrite bind_app, IH.
Qed.

Lemma run_tasks_reducers (parts : list (list Document)) (n : Z)
    (map_results : list (list Bucket)) (lines : list (Z * nat * Bucket)) :
  run_mappers parts n = Ok map_results →
  preview map_results n = Ok lines →
  run_tasks parts n
  = (run_reducers map_results n ≫= λ outputs, Ok (merge_counts outputs)).
Proof.
  intros Hmap Hlines. unfold run_tasks. rewrite Hmap. simpl.
  by rewrite Hlines.
Qed.

(** With one partition and a shard that decodes, the mapper and the
    preview succeed and the driver raises when it builds the arguments
    of the reducer. *)
Lemma run_tasks_one (shard : list Document) :
  Forall decodable (words shard) → run_tasks [shard] 1 = Raise TypeError.
Proof.
  intros Hd.
  destruct (preview_Ok [bucketize 1 (emitted shard)] 1) as [lines Hlines];
    [simpl; lia|].
  rewrite (run_tasks_reducers [shard] 1 [bucketize 1 (emitted shard)] lines);
    [by rewrite run_reducers_one | | done].
  apply (run_mappers_Ok [shard] 1); [lia|].
  apply routable_emitted; [lia|]. simpl. by rewrite app_nil_r.
Qed.

Lemma run_tasks_outcome (parts : list (list Document)) (n : Z) :
  1 ≤ n → length parts = Z.to_nat n →
  run_tasks parts n
  = if decide (Forall decodable (words (concat parts)))
    then (if decide (n = 1) then Raise TypeError
          else Ok (word_count (concat parts)))
    else Raise UnicodeDecodeError.
Proof.
  intros Hn Hlen. destruct (decide _) as [Hd|Hd].
  - destruct (decide (n = 1)) as [->|Hne];
      [|apply run_tasks_Ok; done || lia].
    destruct parts as [|shard [|shard' parts]]; try done.
    simpl in Hd. rewrite app_nil_r in Hd. by apply run_tasks_one.
  - unfold run_tasks, run_mappers.
    rewrite (comprehension_Raise _ _ UnicodeDecodeError); [done| |].
    + apply Forall_forall. intros shard _. simpl.
      rewrite remote_options_apply_map, apply_map_outcome by done.
      destruct (decide _); eauto.
    + rewrite words_concat, Forall_concat, Forall_fmap in Hd.
      apply not_Forall_Exists in Hd; [|apply _].
      eapply Exists_impl; [exact Hd|]. intros shard Hshard. simpl in Hshard.
      simpl. rewrite remote_options_apply_map, apply_map_outcome by done.
      by rewrite decide_False.
Qed.

Lemma job_pos_outcome (corpus : list Document) (p : Z) :
  1 ≤ p →
  job corpus p
  = if decide (Forall decodable (words (processed corpus p)))
    then (if decide (p = 1) then Raise TypeError
          else Ok (word_count (processed corpus p)))
    else Raise UnicodeDecodeError.
Proof.
  intros Hp. rewrite job_run_tasks.
  destruct (partitions corpus p) as [parts|e] eqn:Hparts;
    [|by rewrite partitions_pos in Hparts].
  assert (length parts = Z.to_nat p) as Hlen
    by (apply (partitions_length corpus p); done).
  apply partitions_concat in Hparts; [|done]. simpl.
  rewrite <- Hparts. by apply run_tasks_outcome.
Qed.

(** X15: for [p ≥ 1] the job has three outcomes.  When some word of the
    first [p * (len(D) // p)] documents does not decode as UTF-8 it
    raises [UnicodeDecodeError]; when they all decode and [p = 1] it
    raises [TypeError]; when they all decode and [p ≥ 2] it returns the
    word count of exactly those documents.  What the remaining documents
    hold never matters. *)
Theorem job_outcome (corpus : list Document) (p : Z) :
  1 ≤ p →
  (¬ Forall decodable (words (processed corpus p))
   ∧ job corpus p = Raise UnicodeDecodeError)
  ∨ (Forall decodable (words (processed corpus p)) ∧ p = 1
     ∧ job corpus p = Raise TypeError)
  ∨ (Forall decodable (words (processed corpus p)) ∧ 2 ≤ p
     ∧ job corpus p = Ok (word_count (processed corpus p))).
Proof.
  intros Hp. rewrite job_pos_outcome by done.
  destruct (decide _) as [Hd|Hd]; [|by left]. right.
  destruct (decide (p = 1)); [left | right]; repeat split; done || lia.
Qed.

Lemma job_outcome_witness :
  job [lit "a b"; lit "c"; [xff]] 2
  = Ok (word_count (processed [lit "a b"; lit "c"; [xff]] 2))
  ∧ job [lit "a b"; [xff]] 1 = Raise UnicodeDecodeError
  ∧ job [lit "a b"; lit "c"] 1 = Raise TypeError.
Proof.
  split; [|split].
  - destruct (job_outcome [lit "a b"; lit "c"; [xff]] 2 ltac:(lia))
      as [[Hd _]|[(_ & Hp & _)|(_ & _ & Hjob)]].
    + exfalso. apply Hd. apply (bool_decide_unpack _). vm_compute. exact I.
    + exfalso. lia.
    + exact Hjob.
  - destruct (job_outcome [lit "a b"; [xff]] 1 ltac:(lia))
      as [[_ Hjob]|[(Hd & _)|(_ & Hp & _)]].
    + exact Hjob.
    + exfalso. revert Hd. apply (bool_decide_unpack _). vm_compute. exact I.
    + exfalso. lia.
  - destruct (job_outcome [lit "a b"; lit "c"] 1 ltac:(lia))
      as [[Hd _]|[(_ & _ & Hjob)|(_ & Hp & _)]].
    + exfalso. apply Hd. apply (bool_decide_unpack _). vm_compute. exact I.
    + exact Hjob.
    + exfalso. lia.
Defined.

(** ** The counters of the result *)

Lemma occurrences_present (key : bytes) (ws : list bytes) :
  key ∈ ws → 1 ≤ occurrences key ws.
Proof.
  induction ws as [|w ws IH]; [by intros ?%elem_of_nil|].
  rewrite elem_of_cons, occurrences_cons. unfold occurrences in *.
  destruct (decide (w = key)); [lia|]. intros [?|?]; [congruence | auto].
Qed.

Lemma dict_total_insert_new (counts : Dict) (key : bytes) (v : Z) :
  counts !! key = None →
  dict_total (<[key := v]> counts) = v + dict_total counts.
Proof.
  intros Hkey. unfold dict_total.
  rewrite map_fold_insert_L; [done| |done]. intros. lia.
Qed.

Lemma dict_total_insert (counts : Dict) (key : bytes) (v : Z) :
  dict_total (<[key := v]> counts)
  = v - default 0 (counts !! key) + dict_total counts.
Proof.
  destruct (counts !! key) as [v0|] eqn:Hkey; simpl.
  - rewrite <- (insert_delete_id counts key v0) at 2 by done.
    rewrite <- insert_delete_eq, !dict_total_insert_new
      by apply lookup_delete_eq. lia.
  - rewrite dict_total_insert_new by done. lia.
Qed.

Lemma count_loop_total (ws : list bytes) (acc : Dict) :
  dict_total
    (foldl (λ counts w, <[w := default 0 (counts !! w) + 1]> counts) acc ws)
  = dict_total acc + Py.len ws.
Proof.
  unfold Py.len. revert acc. induction ws as [|w ws IH]; intros acc.
  - simpl. lia.
  - simpl foldl. rewrite IH, dict_total_insert. simpl length. lia.
Qed.

(** X16: in the dictionary a job with [p ≥ 1] returns, every counter is
    at least 1, and the counters add up to the number of words of the
    documents that reached a mapper. *)
Theorem job_counts_total (corpus : list Document) (p : Z) (counts : Dict) :
  1 ≤ p → job corpus p = Ok counts →
  (∀ w v, counts !! w = Some v → 1 ≤ v)
  ∧ dict_total counts = Py.len (words (processed corpus p)).
Proof.
  intros Hp. rewrite job_pos_outcome by done.
  destruct (decide _); [|done]. destruct (decide (p = 1)); [done|].
  intros [= <-]. split.
  - intros w v. rewrite word_count_lookup.
    destruct (decide _) as [Hin|]; [|done]. intros [= <-].
    by apply occurrences_present.
  - unfold word_count. rewrite count_loop_total.
    unfold dict_total. by rewrite map_fold_empty.
Qed.

Lemma job_counts_total_witness :
  (∀ w v, word_count [lit "to be"; lit "or to"] !! w = Some v → 1 ≤ v)
  ∧ dict_total (word_count [lit "to be"; lit "or to"])
    = Py.len (words (processed [lit "to be"; lit "or to"; lit "x"] 2)).
Proof.
  apply (job_counts_total [lit "to be"; lit "or to"; lit "x"] 2).
  - lia.
  - apply (job_pos_Ok [lit "to be"; lit "or to"; lit "x"] 2); [lia|].
    apply (bool_decide_unpack _). vm_compute. exact I.
Defined.

(** ** The bucket of a word *)

(** X17: the bucket of a word is decided by its first letter alone: for
    a word that decodes as UTF-8 and starts with an ASCII byte [c], the
    index is the value of [c] modulo the partition count, whatever
    follows. *)
Theorem word_index_ascii (c : byte) (rest : bytes) (n : Z) :
  n ≠ 0 → (Byte.to_N c < 128)%N → decodable (c :: rest) →
  word_index (c :: rest) n = Ok (Z.of_N (Byte.to_N c) `mod` n).
Proof.
  intros Hn Hc [cs Hcs]. unfold word_index, Py.decode.
  rewrite Hcs. simpl in Hcs.
  destruct (N.ltb_spec (Byte.to_N c) 128) as [_|?]; [|lia].
  apply fmap_Some in Hcs as (cs' & _ & ->). simpl. unfold Py.mod_.
  by destruct (Z.eqb_spec n 0).
Qed.

Lemma word_index_ascii_witness :
  word_index (lit "zen") 3 = Ok (Z.of_N (Byte.to_N "z"%byte) `mod` 3).
Proof.
  apply (word_index_ascii "z"%byte (lit "en") 3).
  - lia.
  - vm_compute. reflexivity.
  - eexists. vm_compute. reflexivity.
Defined.

(** ** Sorting and printing the counts *)

Section sorted_reverse.
Context {A : Type} (key : A → Z).

Lemma insert_reverse_perm (x : A) (l : list A) :
  Py.insert_reverse key x l ≡ₚ x :: l.
Proof.
  induction l as [|y l IH]; simpl; [done|].
  destruct (key x <? key y); [|done]. rewrite IH. apply perm_swap.
Qed.

Lemma sorted_reverse_perm (l : list A) : Py.sorted_reverse key l ≡ₚ l.
Proof.
  induction l as [|x l IH]; simpl; [done|].
  by rewrite insert_reverse_perm, IH.
Qed.

Lemma insert_reverse_sorted (x : A) (l : list A) :
  StronglySorted (λ a b, key b ≤ key a) l →
  StronglySorted (λ a b, key b ≤ key a) (Py.insert_reverse key x l).
Proof.
  induction 1 as [|y l Hl IH Hy]; simpl.
  - repeat constructor.
  - destruct (Z.ltb_spec (key x) (key y)) as [Hlt|Hge].
    + constructor; [done|]. rewrite insert_reverse_perm.
      constructor; [lia | done].
    + constructor; [by constructor|]. constructor; [done|].
      eapply Forall_impl; [exact Hy|]. simpl. intros b Hb. lia.
Qed.

Lemma sorted_reverse_sorted (l : list A) :
  StronglySorted (λ a b, key b ≤ key a) (Py.sorted_reverse key l).
Proof.
  induction l as [|x l IH]; simpl; [constructor|].
  by apply insert_reverse_sorted.
Qed.

Lemma filter_insert_reverse (v : Z) (x : A) (l : list A) :
  filter (λ a, key a = v) (Py.insert_reverse key x l)
  = filter (λ a, key a = v) (x :: l).
Proof.
  induction l as [|y l IH]; simpl; [done|].
  destruct (Z.ltb_spec (key x) (key y)) as [Hlt|Hge]; [|done].
  rewrite (filter_cons _ y), IH, !(filter_cons _ x), (filter_cons _ y).
  destruct (decide (key x = v)); destruct (decide (key y = v)); done || lia.
Qed.

Lemma filter_sorted_reverse (v : Z) (l : list A) :
  filter (λ a, key a = v) (Py.sorted_reverse key l)
  = filter (λ a, key a = v) l.
Proof.
  induction l as [|x l IH]; simpl; [done|].
  by rewrite filter_insert_reverse, !(filter_cons _ x), IH.
Qed.

End sorted_reverse.

(** X18: the sorted list holds every (word, count) item exactly once,
    and the counts never increase along it. *)
Theorem sorted_counts_sorted (items : list Pair) :
  sorted_counts items ≡ₚ items
  ∧ StronglySorted (λ a b : Pair, b.2 ≤ a.2) (sorted_counts items).
Proof.
  split; [apply sorted_reverse_perm | apply sorted_reverse_sorted].
Qed.

(** X19: the sort is stable: the words that share a count stay in the
    order in which the dictionary listed them. *)
Theorem sorted_counts_stable (items : list Pair) (v : Z) :
  filter (λ item : Pair, item.2 = v) (sorted_counts items)
  = filter (λ item : Pair, item.2 = v) items.
Proof. apply filter_sorted_reverse. Qed.

Lemma job_keys_decodable (corpus : list Document) (p : Z) (counts : Dict)
    (w : bytes) (v : Z) :
  job corpus p = Ok counts → counts !! w = Some v → decodable w.
Proof.
  destruct (decide (1 ≤ p)) as [Hp|Hp].
  - rewrite job_pos_outcome by done.
    destruct (decide _) as [Hd|]; [|done].
    destruct (decide (p = 1)); [done|]. intros [= <-].
    rewrite word_count_lookup. destruct (decide _) as [Hin|]; [|done].
    intros _. by apply (proj1 (Forall_forall _ _) Hd).
  - destruct (decide (p = 0)) as [->|Hp0]; [done|].
    rewrite job_neg by lia. by intros [= <-].
Qed.

(** X20: after a job that returned, the loop that prints the sorted
    counts never raises: every key of the result decodes as UTF-8.  It
    prints one line per key of the result, each with the decoded key and
    its count, in the sorted order. *)
Theorem report_never_raises (corpus : list Document) (p : Z) (counts : Dict)
    (items : list Pair) :
  job corpus p = Ok counts → items ≡ₚ map_to_list counts →
  ∃ lines,
    report (sorted_counts items) = Ok lines
    ∧ length lines = size counts
    ∧ Forall2 (λ (item : Pair) (line : list N * Z),
                 Py.decode item.1 = Ok line.1 ∧ line.2 = item.2)
        (sorted_counts items) lines.
Proof.
  intros Hjob Hitems.
  pose proof (sorted_reverse_perm snd items) as Hperm.
  fold (sorted_counts items) in Hperm.
  assert (Forall (λ item : Pair, decodable item.1) (sorted_counts items))
    as Hdec.
  { apply Forall_forall. intros [w v] Hin.
    rewrite Hperm, Hitems in Hin. apply elem_of_map_to_list in Hin.
    by apply (job_keys_decodable corpus p counts w v). }
  destruct (comprehension_Ok
              (λ count : Pair, word ← Py.decode count.1; Ok (word, count.2))
              (sorted_counts items)) as [lines Hlines].
  { eapply Forall_impl; [exact Hdec|]. intros [w v] [cs Hcs].
    exists (cs, v). unfold Py.decode. simpl in *. by rewrite Hcs. }
  exists lines. split; [done|].
  apply comprehension_Ok_inv in Hlines. split.
  - rewrite <- (Forall2_length _ _ _ Hlines), Hperm, Hitems.
    apply length_map_to_list.
  - eapply Forall2_impl; [exact Hlines|]. intros [w v] [cs v'].
    intros (cs' & Hcs & [= <- <-])%bind_Ok_inv. done.
Qed.

Lemma report_never_raises_witness :
  ∃ lines,
    report (sorted_counts [(lit "be", 1); (lit "to", 2)]) = Ok lines
    ∧ length lines = size (word_count [lit "to be"; lit "to"]).
Proof.
  destruct (report_never_raises [lit "to be"; lit "to"] 2
              (word_count [lit "to be"; lit "to"])
              [(lit "be", 1); (lit "to", 2)])
    as (lines & Hlines & Hlen & _).
  - apply (job_pos_Ok [lit "to be"; lit "to"] 2); [lia|].
    apply (bool_decide_unpack _). vm_compute. exact I.
  - apply NoDup_Permutation.
    + repeat constructor; vm_compute; intros Hin;
        repeat (apply elem_of_cons in Hin as [Hin|Hin]; [discriminate|]);
        by apply elem_of_nil in Hin.
    + apply NoDup_map_to_list.
    + intros [w v]. rewrite elem_of_map_to_list, word_count_lookup.
      rewrite !elem_of_cons, elem_of_nil. split.
      * intros [[= -> ->]|[[= -> ->]|[]]]; vm_compute; reflexivity.
      * destruct (decide _) as [Hin|]; [|done]. intros [= <-].
        vm_compute in Hin.
        repeat (apply elem_of_cons in Hin as [->|Hin]);
          [right; left | left | right; left |]; try reflexivity.
        by apply elem_of_nil in Hin.
  - exists lines. split; [exact Hlines | exact Hlen].
Defined.

(** ** The result does not depend on how the corpus is cut *)

Lemma processed_divide (corpus : list Document) (p : Z) :
  1 ≤ p → (p | Py.len corpus) → processed corpus p = corpus.
Proof.
  intros Hp Hdiv. unfold processed.
  rewrite chunk_size_divide by done. apply firstn_all.
Qed.

(** X21: a partition count of at least two does not change the outcome
    of the job, as long as it divides the number of documents: two such
    counts give the same dictionary, or the same exception. *)
Theorem job_partition_count (corpus : list Document) (p q : Z) :
  2 ≤ p → 2 ≤ q → (p | Py.len corpus) → (q | Py.len corpus) →
  job corpus p = job corpus q.
Proof.
  intros Hp Hq Hdp Hdq. rewrite !job_pos_outcome by lia.
  rewrite !processed_divide by (done || lia).
  destruct (decide _); [|done].
  destruct (decide (p = 1)), (decide (q = 1)); done || lia.
Qed.

Lemma job_partition_count_witness :
  job [lit "to be"; lit "or"; lit "not to"; lit "be"] 2
  = job [lit "to be"; lit "or"; lit "not to"; lit "be"] 4.
Proof.
  apply (job_partition_count
           [lit "to be"; lit "or"; lit "not to"; lit "be"] 2 4);
    [lia | lia | by exists 2 | by exists 1].
Defined.

Lemma words_perm (corpus corpus' : list Document) :
  corpus ≡ₚ corpus' → words corpus ≡ₚ words corpus'.
Proof. intros Hperm. unfold words. by rewrite Hperm. Qed.

Lemma word_count_perm (corpus corpus' : list Document) :
  corpus ≡ₚ corpus' → word_count corpus = word_count corpus'.
Proof.
  intros Hperm%words_perm. apply map_eq. intros key.
  rewrite !word_count_lookup. unfold occurrences.
  destruct (decide (key ∈ words corpus)) as [Hin|Hnin].
  - rewrite decide_True by by rewrite <- Hperm. by rewrite Hperm.
  - by rewrite decide_False by by rewrite <- Hperm.
Qed.

(** X22: the order of the documents does not change the outcome of the
    job when the partition count [p ≥ 1] divides their number: a
    reordered corpus gives the same dictionary, or the same exception. *)
Theorem job_document_order (corpus corpus' : list Document) (p : Z) :
  1 ≤ p → (p | Py.len corpus) → corpus ≡ₚ corpus' →
  job corpus p = job corpus' p.
Proof.
  intros Hp Hdiv Hperm.
  assert (p | Py.len corpus') as Hdiv'
    by (unfold Py.len in *; by rewrite <- Hperm).
  rewrite !job_pos_outcome, !processed_divide by done.
  rewrite (word_count_perm _ _ Hperm).
  destruct (decide (Forall decodable (words corpus))) as [Hd|Hd];
    destruct (decide (Forall decodable (words corpus'))) as [Hd'|Hd'];
    try done.
  - exfalso. apply Hd'. by rewrite <- (words_perm _ _ Hperm).
  - exfalso. apply Hd. by rewrite (words_perm _ _ Hperm).
Qed.

Lemma job_document_order_witness :
  job [lit "to be"; lit "or not"] 2 = job [lit "or not"; lit "to be"] 2.
Proof.
  apply (job_document_order [lit "to be"; lit "or not"]
           [lit "or not"; lit "to be"] 2);
    [lia | by exists 1 | apply perm_swap].
Defined.

(** ** The preview of the mapper outputs *)

Lemma slice_prefix {A} (l : list A) (k : nat) :
  Py.slice l 0 (Z.of_nat k) = take k l.
Proof.
  unfold Py.slice, Py.slice_bound, Py.len.
  destruct (Z.ltb_spec 0 0); [lia|].
  destruct (Z.ltb_spec (Z.of_nat k) 0); [lia|].
  rewrite (Z.min_l 0) by lia. rewrite Z.sub_0_r. simpl. rewrite drop_0.
  destruct (decide (k ≤ length l)%nat).
  - by rewrite Z.min_l, Nat2Z.id by lia.
  - rewrite Z.min_r, Nat2Z.id, !take_ge by lia. done.
Qed.

Lemma length_concat_uniform {A} (n : nat) (ls : list (list A)) :
  Forall (λ l, length l = n) ls → length (concat ls) = (length ls * n)%nat.
Proof.
  induction 1 as [|l ls Hl _ IH]; [done|].
  simpl. rewrite length_app. lia.
Qed.

Lemma lookup_concat_uniform {A} (n : nat) (ls : list (list A)) (i j : nat)
    (l : list A) (x : A) :
  Forall (λ l, length l = n) ls → ls !! i = Some l → l !! j = Some x →
  concat ls !! (i * n + j)%nat = Some x.
Proof.
  intros Hall. revert i. induction Hall as [|l' ls Hl' _ IH]; intros i Hi Hj.
  - done.
  - destruct i as [|i]; simpl in *.
    + injection Hi as ->. by apply lookup_app_l_Some.
    + rewrite lookup_app_r by lia.
      replace (n + i * n + j - length l')%nat with (i * n + j)%nat by lia.
      by apply IH.
Qed.

(** X23: after the slicing and the mappers of a job with [p ≥ 1], the
    loop that previews the mapper outputs never raises: it prints [p * p]
    lines, exactly one for every return value [j] of every mapper [i], in
    the order of the mappers and then of the return values (the line of
    [(i, j)] is line number [i * p + j]), and the line shows [i], [j] and
    the first two pairs of that bucket (all of them when the bucket holds
    fewer). *)
Theorem preview_lines (corpus : list Document) (p : Z)
    (parts : list (list Document)) (map_results : list (list Bucket)) :
  1 ≤ p → partitions corpus p = Ok parts →
  run_mappers parts p = Ok map_results →
  ∃ lines,
    preview map_results p = Ok lines
    ∧ length lines = (Z.to_nat p * Z.to_nat p)%nat
    ∧ ∀ i j : nat, (i < Z.to_nat p)%nat → (j < Z.to_nat p)%nat →
        ∃ buckets bucket,
          map_results !! i = Some buckets
          ∧ buckets !! j = Some bucket
          ∧ lines !! (i * Z.to_nat p + j)%nat
            = Some (Z.of_nat i, j, take 2 bucket).
Proof.
  intros Hp Hparts Hmap.
  assert (length parts = Z.to_nat p) as Hlen
    by (apply (partitions_length corpus p); done).
  apply run_mappers_Ok_inv in Hmap as [_ ->]; [|done].
  set (mr := (λ shard, bucketize p (emitted shard)) <$> parts).
  set (f := λ i : nat,
         imap (λ (j : nat) (result : Bucket),
                 (Z.of_nat i, j, Py.slice result 0 2))
           (default [] (mr !! i))).
  assert (comprehension
            (λ i, mapper_results ← Py.getitem mr i;
                  Ok (imap (λ j result, (i, j, Py.slice result 0 2))
                        mapper_results))
            (Py.range p) = Ok (f <$> seq 0 (Z.to_nat p))) as Hlines.
  { rewrite range_nat, comprehension_fmap.
    apply comprehension_total, Forall_forall.
    intros i [_ Hi]%elem_of_seq. simpl. unfold Py.getitem, Py.len.
    rewrite subscript_inside
      by (unfold mr; rewrite length_fmap; lia).
    simpl. rewrite Nat2Z.id. unfold f.
    destruct (mr !! i) as [buckets|] eqn:Hb; [done|].
    apply lookup_ge_None in Hb. unfold mr in Hb.
    rewrite length_fmap in Hb. lia. }
  exists (concat (f <$> seq 0 (Z.to_nat p))). unfold preview.
  rewrite Hlines. split; [done|].
  assert (∀ i, (i < Z.to_nat p)%nat →
    ∃ shard, mr !! i = Some (bucketize p (emitted shard))) as Hmr.
  { intros i Hi. destruct (parts !! i) as [shard|] eqn:Hs.
    - exists shard. unfold mr. by rewrite list_lookup_fmap, Hs.
    - apply lookup_ge_None in Hs. lia. }
  assert (Forall (λ l, length l = Z.to_nat p) (f <$> seq 0 (Z.to_nat p)))
    as Hrows.
  { apply Forall_fmap, Forall_forall. intros i [_ Hi]%elem_of_seq.
    destruct (Hmr i) as [shard Hshard]; [lia|]. simpl. unfold f.
    rewrite Hshard. simpl. unfold bucketize.
    by rewrite length_imap, length_fmap, length_seq. }
  split.
  - rewrite (length_concat_uniform (Z.to_nat p)) by done.
    by rewrite length_fmap, length_seq.
  - intros i j Hi Hj. destruct (Hmr i Hi) as [shard Hshard].
    assert (bucketize p (emitted shard) !! j
            = Some (bucket_of p j (emitted shard))) as Hb
      by (unfold bucketize; by rewrite list_lookup_fmap, lookup_seq_lt).
    exists (bucketize p (emitted shard)), (bucket_of p j (emitted shard)).
    split; [done|]. split; [done|].
    apply (lookup_concat_uniform (Z.to_nat p) _ i j (f i)); [done| |].
    + by rewrite list_lookup_fmap, lookup_seq_lt.
    + unfold f. rewrite Hshard. simpl. rewrite list_lookup_imap, Hb. simpl.
      do 2 f_equal. apply (slice_prefix _ 2).
Qed.

Lemma preview_lines_witness :
  ∃ lines,
    preview [[[(lit "to", 1); (lit "be", 1); (lit "to", 1)]; []];
             [[(lit "not", 1)]; [(lit "or", 1)]]] 2 = Ok lines
    ∧ length lines = 4%nat
    ∧ lines !! 0%nat = Some (0, 0%nat, [(lit "to", 1); (lit "be", 1)])
    ∧ lines !! 3%nat = Some (1, 1%nat, [(lit "or", 1)]).
Proof.
  destruct (preview_lines [lit "to be to"; lit "or not"] 2
              [[lit "to be to"]; [lit "or not"]]
              [[[(lit "to", 1); (lit "be", 1); (lit "to", 1)]; []];
               [[(lit "not", 1)]; [(lit "or", 1)]]])
    as (lines & Hlines & Hlen & Hline); [lia | reflexivity | reflexivity |].
  exists lines. split; [exact Hlines|]. split; [exact Hlen|]. split.
  - destruct (Hline 0%nat 0%nat) as (buckets & bucket & Hi & Hj & Hl);
      [simpl; lia | simpl; lia |].
    injection Hi as <-. injection Hj as <-. exact Hl.
  - destruct (Hline 1%nat 1%nat) as (buckets & bucket & Hi & Hj & Hl);
      [simpl; lia | simpl; lia |].
    injection Hi as <-. injection Hj as <-. exact Hl.
Defined.
